(** * Anti-delete: message archive and delete-recovery engine

    A shallow embedding of [antidelete.js]: the content resolver
    ([resolveContentNode], [extractText], [detectMediaKind]), the
    triple-indexed [MessageCache], and the handlers installed by
    [attachAntiDelete] ([handleRevoke], [onUpsert], [onUpdate], [safeSend]).

    Conventions.
    - An optional JS string is an [option string]; [undefined] is [None].
      JS truthiness of such a value is [truthy]: [undefined] and the empty
      string are falsy.
    - A JS [Map] is an association list in insertion order: [Map.set] on a
      present key overwrites in place, on a fresh key appends; iteration
      order is list order.  The order is observable through [evictOldest],
      whose stable sort breaks timestamp ties by iteration order.
    - Object identity of a cached record ([rv === v]) is the allocation
      number [rid] the cache hands out in [add].
    - The host (transport, clock, media download) is a record of oracles
      indexed by the number of host interactions made so far, so that no two
      calls are forced to agree. *)

From Stdlib Require Import String Ascii List ZArith Lia Bool Arith.
From Stdlib Require Import Sorting.Sorted Sorting.Permutation.
Import ListNotations.

Local Open Scope string_scope.
Local Open Scope Z_scope.

(* ------------------------------------------------------------------ *)
(** ** JavaScript values *)

(** [!!s] for an optional string. *)
Definition truthy (s : option string) : bool :=
  match s with
  | Some (String _ _) => true
  | _ => false
  end.

(** [s || ''] *)
Definition orEmpty (s : option string) : string :=
  match s with
  | Some v => v
  | None => ""
  end.

(** [a || b] on optional strings. *)
Definition orElse (a b : option string) : option string :=
  if truthy a then a else b.

(** Truthiness of a plain string: [if (idOnly)]. *)
Definition nonEmpty (s : string) : bool :=
  match s with
  | EmptyString => false
  | String _ _ => true
  end.

(** [s.split('@')[0]]: the part of [s] before the first ['@']. *)
Fixpoint beforeAt (s : string) : string :=
  match s with
  | EmptyString => EmptyString
  | String c rest => if Ascii.eqb c "@"%char then EmptyString else String c (beforeAt rest)
  end.

(* ------------------------------------------------------------------ *)
(** ** Message envelopes *)

(** [proto.IMessageKey] *)
Record MessageKey := mkKey {
  remoteJid : option string;
  id : option string;
  participant : option string
}.

(** [proto.Message.IProtocolMessage]; [pm_type = Some 0] is REVOKE. *)
Record ProtocolMessage := mkProtocolMessage {
  pm_type : option Z;
  pm_key : option MessageKey
}.

Record ExtendedTextMessage := mkExtendedText { text : option string }.

(** Image and video nodes; only the caption is read. *)
Record CaptionedMedia := mkCaptioned { caption : option string }.

(** Nodes of which only the presence is read. *)
Inductive Blob := blob.

(** [proto.IMessage], with the fields [antidelete.js] reads.  A wrapper
    ([ephemeralMessage], [viewOnceMessage], ...) is an object whose
    [message] field may itself be absent. *)
Inductive Message := mkMessage {
  ephemeralMessage : option Wrapper;
  viewOnceMessage : option Wrapper;
  viewOnceMessageV2 : option Wrapper;
  viewOnceMessageV2Extension : option Wrapper;
  conversation : option string;
  extendedTextMessage : option ExtendedTextMessage;
  imageMessage : option CaptionedMedia;
  videoMessage : option CaptionedMedia;
  stickerMessage : option Blob;
  audioMessage : option Blob;
  documentMessage : option Blob;
  liveLocationMessage : option Blob;
  locationMessage : option Blob;
  protocolMessage : option ProtocolMessage
}
with Wrapper := mkWrapper { w_message : option Message }.

(** [proto.IWebMessageInfo]: what the transport delivers and what the cache
    keeps verbatim as [container]. *)
Record WAMessage := mkWAMessage {
  key : option MessageKey;
  message : option Message
}.

(** An entry of a [messages.update] batch. *)
Record MessageUpdate := mkUpdate { update : option WAMessage }.

(** A message with every field absent. *)
Definition emptyMessage : Message :=
  mkMessage None None None None None None None None None None None None None None.

(* ------------------------------------------------------------------ *)
(** ** Content resolver *)

Record Resolved := mkResolved {
  node : option Message;
  type : option string
}.

Definition noContent : Resolved := mkResolved None None.

Inductive MediaKind := image | video | sticker | audio | document | location.

(** Truthiness of an optional object. *)
Definition present {A} (o : option A) : bool :=
  match o with Some _ => true | None => false end.

Section Resolver.

(** Baileys' [getContentType]; its result is passed through untouched. *)
Variable getContentType : Message -> option string.

(** The body of [resolveContentNode] for a present [message]. *)
Fixpoint resolvePresent (msg : Message) : Resolved :=
  let recur (w : Wrapper) :=
    match w_message w with
    | None => noContent
    | Some inner => resolvePresent inner
    end in
  match ephemeralMessage msg with
  | Some w => recur w
  | None =>
  match viewOnceMessage msg with
  | Some w => recur w
  | None =>
  match viewOnceMessageV2 msg with
  | Some w => recur w
  | None =>
  match viewOnceMessageV2Extension msg with
  | Some w => recur w
  | None => mkResolved (Some msg) (getContentType msg)
  end end end end.

Definition resolveContentNode (m : option Message) : Resolved :=
  match m with
  | None => noContent
  | Some msg => resolvePresent msg
  end.

(** The same recursion with a budget of [depth] nested calls; [None]
    stands for a call that would need a deeper stack. *)
Fixpoint resolveWithin (depth : nat) (m : option Message) : option Resolved :=
  match depth with
  | O => None
  | S depth' =>
    match m with
    | None => Some noContent
    | Some msg =>
      match ephemeralMessage msg with
      | Some w => resolveWithin depth' (w_message w)
      | None =>
      match viewOnceMessage msg with
      | Some w => resolveWithin depth' (w_message w)
      | None =>
      match viewOnceMessageV2 msg with
      | Some w => resolveWithin depth' (w_message w)
      | None =>
      match viewOnceMessageV2Extension msg with
      | Some w => resolveWithin depth' (w_message w)
      | None => Some (mkResolved (Some msg) (getContentType msg))
      end end end end
    end
  end.

Definition extractText (containerMessage : option Message) : string :=
  match node (resolveContentNode containerMessage) with
  | None => ""
  | Some n =>
    if truthy (conversation n) then orEmpty (conversation n)
    else if truthy (match extendedTextMessage n with Some e => text e | None => None end)
    then orEmpty (match extendedTextMessage n with Some e => text e | None => None end)
    else if truthy (match imageMessage n with Some i => caption i | None => None end)
    then orEmpty (match imageMessage n with Some i => caption i | None => None end)
    else if truthy (match videoMessage n with Some v => caption v | None => None end)
    then orEmpty (match videoMessage n with Some v => caption v | None => None end)
    else ""
  end.

Definition detectMediaKind (containerMessage : option Message) : option MediaKind :=
  match node (resolveContentNode containerMessage) with
  | None => None
  | Some n =>
    if present (imageMessage n) then Some image
    else if present (videoMessage n) then Some video
    else if present (stickerMessage n) then Some sticker
    else if present (audioMessage n) then Some audio
    else if present (documentMessage n) then Some document
    else if present (liveLocationMessage n) || present (locationMessage n) then Some location
    else None
  end.

End Resolver.

(** Number of wrapper layers the resolver walks through, counting a layer
    for every wrapper field it follows. *)
Fixpoint wrapperDepth (msg : Message) : nat :=
  let below (w : Wrapper) :=
    match w_message w with
    | None => 1%nat
    | Some inner => S (wrapperDepth inner)
    end in
  match ephemeralMessage msg with
  | Some w => below w
  | None =>
  match viewOnceMessage msg with
  | Some w => below w
  | None =>
  match viewOnceMessageV2 msg with
  | Some w => below w
  | None =>
  match viewOnceMessageV2Extension msg with
  | Some w => below w
  | None => O
  end end end end.

Definition envelopeDepth (m : option Message) : nat :=
  match m with
  | None => O
  | Some msg => wrapperDepth msg
  end.

(** [msg] carries one of the four wrapper fields. *)
Definition isWrapper (msg : Message) : bool :=
  present (ephemeralMessage msg) || present (viewOnceMessage msg)
  || present (viewOnceMessageV2 msg) || present (viewOnceMessageV2Extension msg).

(** [n] ephemeral layers around [m]. *)
Fixpoint ephemeralNest (n : nat) (m : Message) : Message :=
  match n with
  | O => m
  | S n' =>
    mkMessage (Some (mkWrapper (Some (ephemeralNest n' m))))
              None None None None None None None None None None None None None
  end.

Definition textMessage (body : string) : Message :=
  mkMessage None None None None (Some body) None None None None None None None None None.

(* ------------------------------------------------------------------ *)
(** ** JavaScript [Map] with string keys *)

Module JSMap.

Definition t (V : Type) := list (string * V).

Definition empty {V} : t V := [].

Fixpoint get {V} (k : string) (m : t V) : option V :=
  match m with
  | [] => None
  | (k', v) :: rest => if String.eqb k k' then Some v else get k rest
  end.

(** [Map.prototype.set]: a present key keeps its position. *)
Fixpoint set {V} (k : string) (v : V) (m : t V) : t V :=
  match m with
  | [] => [(k, v)]
  | (k', v') :: rest =>
    if String.eqb k k' then (k, v) :: rest else (k', v') :: set k v rest
  end.

Definition delete {V} (k : string) (m : t V) : t V :=
  filter (fun e => negb (String.eqb k (fst e))) m.

Definition size {V} (m : t V) : Z := Z.of_nat (length m).

Definition keys {V} (m : t V) : list string := map fst m.

Definition values {V} (m : t V) : list V := map snd m.

(** [for (const [k, v] of m.entries()) if (p(v)) m.delete(k)] *)
Definition deleteWhere {V} (p : V -> bool) (m : t V) : t V :=
  filter (fun e => negb (p (snd e))) m.

End JSMap.

(* ------------------------------------------------------------------ *)
(** ** The message cache *)

Definition DEFAULT_TTL_MS : Z := 24 * 60 * 60 * 1000.
Definition CLEAN_INTERVAL_MS : Z := 10 * 60 * 1000.
Definition MAX_CACHE : Z := 5000.

Record Keys := mkKeys {
  strict : string;
  loose : string;
  idOnly : string
}.

Definition optField {A} (f : MessageKey -> option A) (k : option MessageKey) : option A :=
  match k with
  | None => None
  | Some k' => f k'
  end.

Definition makeKeys (k : option MessageKey) : Keys :=
  let jid := orEmpty (optField remoteJid k) in
  let i := orEmpty (optField id k) in
  let p := orEmpty (optField participant k) in
  {| strict := jid ++ "|" ++ i ++ "|" ++ p;
     loose := jid ++ "|" ++ i;
     idOnly := i |}.

(** [{ at, container, authorJid }], with the identity [rid] of the object. *)
Record Rec := mkRec {
  rid : nat;
  at_ : Z;
  container : WAMessage;
  authorJid : option string
}.

Record MessageCache := mkCache {
  ttlMs : Z;
  strictMap : JSMap.t Rec;
  looseMap : JSMap.t Rec;
  idMap : JSMap.t Rec;
  nextRid : nat
}.

Definition newCache (ttl : Z) : MessageCache :=
  mkCache ttl JSMap.empty JSMap.empty JSMap.empty O.

Definition totalSize (c : MessageCache) : Z :=
  JSMap.size (strictMap c) + JSMap.size (looseMap c) + JSMap.size (idMap c).

(** [rv === v] *)
Definition sameRec (v rv : Rec) : bool := Nat.eqb (rid rv) (rid v).

(** [arr.sort((a, b) => a.t - b.t)]: the sort is stable, so an element goes
    in front of the first one that is strictly younger. *)
Fixpoint insertByAt (e : string * Rec) (sorted : list (string * Rec)) : list (string * Rec) :=
  match sorted with
  | [] => [e]
  | e' :: rest =>
    if at_ (snd e) <=? at_ (snd e') then e :: sorted else e' :: insertByAt e rest
  end.

Fixpoint sortByAt (arr : list (string * Rec)) : list (string * Rec) :=
  match arr with
  | [] => []
  | e :: rest => insertByAt e (sortByAt rest)
  end.

(** One round of the eviction loop: drop every index entry holding [v]. *)
Definition dropRec (c : MessageCache) (v : Rec) : MessageCache :=
  {| ttlMs := ttlMs c;
     strictMap := JSMap.deleteWhere (sameRec v) (strictMap c);
     looseMap := JSMap.deleteWhere (sameRec v) (looseMap c);
     idMap := JSMap.deleteWhere (sameRec v) (idMap c);
     nextRid := nextRid c |}.

(** The records [evictOldest count] picks: the first
    [Math.min(count, arr.length)] of the sorted snapshot of [strictMap]. *)
Definition victims (count : nat) (c : MessageCache) : list Rec :=
  JSMap.values (firstn count (sortByAt (strictMap c))).

Definition evictOldest (count : nat) (c : MessageCache) : MessageCache :=
  fold_left dropRec (victims count c) c.

(** [Math.ceil(MAX_CACHE * 0.3)]: the double product [5000 * 0.3] is exactly
    [1500], so the ceiling is the one of the exact product. *)
Definition evictBatch : nat := Z.to_nat ((MAX_CACHE * 3 + 9) / 10).

Definition add (now : Z) (k : option MessageKey) (cont : WAMessage)
           (author : option string) (c : MessageCache) : MessageCache :=
  let ks := makeKeys k in
  let size := totalSize c in
  let c1 := if MAX_CACHE * 3 <? size then evictOldest evictBatch c else c in
  let rec := mkRec (nextRid c1) now cont author in
  {| ttlMs := ttlMs c1;
     strictMap := JSMap.set (strict ks) rec (strictMap c1);
     looseMap := JSMap.set (loose ks) rec (looseMap c1);
     idMap := if nonEmpty (idOnly ks) then JSMap.set (idOnly ks) rec (idMap c1)
              else idMap c1;
     nextRid := S (nextRid c1) |}.

(** The record the three-tier lookup reaches, before the TTL check. *)
Definition firstHit (ks : Keys) (c : MessageCache) : option Rec :=
  match JSMap.get (strict ks) (strictMap c) with
  | Some r => Some r
  | None =>
    match JSMap.get (loose ks) (looseMap c) with
    | Some r => Some r
    | None =>
      if nonEmpty (idOnly ks) then JSMap.get (idOnly ks) (idMap c) else None
    end
  end.

Definition getByRevokedKey (now : Z) (k : option MessageKey) (c : MessageCache)
  : option Rec * MessageCache :=
  let ks := makeKeys k in
  match firstHit ks c with
  | None => (None, c)
  | Some r =>
    if ttlMs c <? now - at_ r then
      (None,
       {| ttlMs := ttlMs c;
          strictMap := JSMap.delete (strict ks) (strictMap c);
          looseMap := JSMap.delete (loose ks) (looseMap c);
          idMap := if nonEmpty (idOnly ks) then JSMap.delete (idOnly ks) (idMap c)
                   else idMap c;
          nextRid := nextRid c |})
    else (Some r, c)
  end.

Definition cleanup (now : Z) (c : MessageCache) : MessageCache :=
  let expire := JSMap.deleteWhere (fun v : Rec => ttlMs c <? now - at_ v) in
  {| ttlMs := ttlMs c;
     strictMap := expire (strictMap c);
     looseMap := expire (looseMap c);
     idMap := expire (idMap c);
     nextRid := nextRid c |}.

Definition clear (c : MessageCache) : MessageCache :=
  {| ttlMs := ttlMs c;
     strictMap := JSMap.empty;
     looseMap := JSMap.empty;
     idMap := JSMap.empty;
     nextRid := nextRid c |}.

(** An index entry holding the record with identity [r]. *)
Definition holds (r : nat) (m : JSMap.t Rec) : bool :=
  existsb (fun e => Nat.eqb (rid (snd e)) r) m.

(** The record with identity [r] is reachable through some index. *)
Definition reachable (r : nat) (c : MessageCache) : bool :=
  holds r (strictMap c) || holds r (looseMap c) || holds r (idMap c).

(* ------------------------------------------------------------------ *)
(** ** Host interface and handler state *)

Definition Buffer := string.

(** What [handleRevoke] hands to the send primitives. *)
Inductive Content :=
| TextContent (body : string)
| ImageContent (buffer : Buffer) (cap : string)
| VideoContent (buffer : Buffer) (cap : string)
| StickerContent (buffer : Buffer)
| AudioContent (buffer : Buffer)
| DocumentContent (buffer : Buffer).

(** The two send primitives [safeSend] knows: the injected
    [sendWithChannel] and the socket's own [sock.sendMessage]. *)
Inductive Channel := Branded | Bare.

(** One call of a send primitive and whether it resolved. *)
Record Attempt := mkAttempt {
  via : Channel;
  to : string;
  payload : Content;
  resolved : bool
}.

(** The collaborators of [attachAntiDelete].  The [nat] argument is the
    number of host interactions that came before the call. *)
Record Host := mkHost {
  getContentType : Message -> option string;
  (** [Date.now()] *)
  dateNow : nat -> Z;
  (** [new Date().toLocaleString()] *)
  toLocaleString : nat -> string;
  (** [downloadMediaMessage(container, 'buffer', ...)]; [None] when it throws *)
  downloadMediaMessage : nat -> WAMessage -> option Buffer;
  (** [sendWithChannel(sock, jid, content, extra)] resolves *)
  sendWithChannel : nat -> string -> Content -> bool;
  (** [sock.sendMessage(jid, content, extra)] resolves *)
  sendMessage : nat -> string -> Content -> bool
}.

(** The [options] argument of [attachAntiDelete]. *)
Record Options := mkOptions {
  opt_ttlMs : option Z;
  notifyText : option (string -> string -> string);
  opt_forwardToJid : option string
}.

(** The variables [attachAntiDelete] closes over, the sends made so far and
    the count of host interactions. *)
Record World := mkWorld {
  enabled : bool;
  forwardToJid : option string;
  cache : MessageCache;
  log : list Attempt;
  steps : nat
}.

(** The state right after [attachAntiDelete(sock, sendWithChannel, options)]. *)
Definition attachAntiDelete (options : Options) : World :=
  {| enabled := true;
     forwardToJid := if truthy (opt_forwardToJid options) then opt_forwardToJid options else None;
     cache := newCache (match opt_ttlMs options with Some t => t | None => DEFAULT_TTL_MS end);
     log := [];
     steps := O |}.

(** *** Asynchronous code: state and exceptions *)

Inductive Outcome (A : Type) :=
| Returned (a : A)
| Thrown.
Arguments Returned {A} a.
Arguments Thrown {A}.

Definition Task (A : Type) := World -> Outcome A * World.

Definition ret {A} (a : A) : Task A := fun w => (Returned a, w).

Definition bind {A B} (m : Task A) (f : A -> Task B) : Task B :=
  fun w =>
    match m w with
    | (Returned a, w') => f a w'
    | (Thrown, w') => (Thrown, w')
    end.

(** [try { body } catch { handler }] *)
Definition tryCatch {A} (body handler : Task A) : Task A :=
  fun w =>
    match body w with
    | (Returned a, w') => (Returned a, w')
    | (Thrown, w') => handler w'
    end.

Notation "x <- m ;; k" := (bind m (fun x => k))
  (at level 61, m at next level, right associativity).
Notation "m ;;; k" := (bind m (fun _ => k))
  (at level 61, right associativity).

Definition tick (w : World) : World :=
  {| enabled := enabled w; forwardToJid := forwardToJid w; cache := cache w;
     log := log w; steps := S (steps w) |}.

Definition withCache (c : MessageCache) (w : World) : World :=
  {| enabled := enabled w; forwardToJid := forwardToJid w; cache := c;
     log := log w; steps := steps w |}.

Definition logged (a : Attempt) (w : World) : World :=
  {| enabled := enabled w; forwardToJid := forwardToJid w; cache := cache w;
     log := log w ++ [a]; steps := S (steps w) |}.

Section Handlers.

Variable host : Host.
Variable options : Options.

Definition now : Task Z :=
  fun w => (Returned (dateNow host (steps w)), tick w).

Definition localeNow : Task string :=
  fun w => (Returned (toLocaleString host (steps w)), tick w).

Definition callSendWithChannel (jid : string) (content : Content) : Task unit :=
  fun w =>
    let ok := sendWithChannel host (steps w) jid content in
    (if ok then Returned tt else Thrown, logged (mkAttempt Branded jid content ok) w).

Definition callSendMessage (jid : string) (content : Content) : Task unit :=
  fun w =>
    let ok := sendMessage host (steps w) jid content in
    (if ok then Returned tt else Thrown, logged (mkAttempt Bare jid content ok) w).

Definition callDownload (cont : WAMessage) : Task Buffer :=
  fun w =>
    (match downloadMediaMessage host (steps w) cont with
     | Some b => Returned b
     | None => Thrown
     end, tick w).

Definition safeSend (jid : string) (content : Content) : Task unit :=
  tryCatch (callSendWithChannel jid content)
           (tryCatch (callSendMessage jid content) (ret tt)).

Definition defaultNotice (deleterJid chatId time : string) : string :=
  "ðŸ§© Anti-Delete (Global)" ++ String "010" "â€¢ Chat: " ++ chatId
  ++ String "010" "â€¢ Deleted by: " ++ beforeAt deleterJid
  ++ String "010" "â€¢ Time: " ++ time.

Definition buildNoticeText (deleterJid chatId : string) : Task string :=
  match notifyText options with
  | Some customBuilder => ret (customBuilder deleterJid chatId)
  | None =>
    time <- localeNow ;;
    ret (defaultNotice deleterJid chatId time)
  end.

Definition buildOutgoingContent (kind : MediaKind) (buffer : Buffer)
           (cap : string) : Content :=
  match kind with
  | image => ImageContent buffer cap
  | video => VideoContent buffer cap
  | sticker => StickerContent buffer
  | audio => AudioContent buffer
  | document => DocumentContent buffer
  | location => TextContent (if nonEmpty cap then cap else "(location message)")
  end.

(** [cache.add(key, container, authorJid)] at the current time. *)
Definition cacheAdd (k : option MessageKey) (cont : WAMessage)
           (author : option string) : Task unit :=
  t <- now ;;
  fun w => (Returned tt, withCache (add t k cont author (cache w)) w).

(** [cache.getByRevokedKey(key)] at the current time. *)
Definition cacheGet (k : option MessageKey) : Task (option Rec) :=
  t <- now ;;
  fun w =>
    let (r, c') := getByRevokedKey t k (cache w) in
    (Returned r, withCache c' w).

Definition couldNotRestore (notice : string) : Content :=
  TextContent (notice ++ String "010" "(Couldn't restore content)").

Definition textNotice (notice txt : string) : Content :=
  TextContent (notice ++ String "010" (String "010" txt)).

Definition mediaNotRestored (notice : string) : Content :=
  TextContent (notice ++ String "010" "(Media could not be restored)").

Definition handleRevoke (revokedKey : option MessageKey)
           (revokerJid : option string) : Task unit :=
  fun w =>
    match revokedKey with
    | None => ret tt w
    | Some rk =>
      if negb (enabled w) then ret tt w
      else
        let chatId := remoteJid rk in
        let deleterJid :=
          orEmpty (orElse revokerJid (orElse (participant rk) (remoteJid rk))) in
        if negb (truthy chatId) then ret tt w
        else
          (rec <- cacheGet revokedKey ;;
           let targetJid := orEmpty (orElse (forwardToJid w) chatId) in
           notice <- buildNoticeText deleterJid (orEmpty chatId) ;;
           match rec with
           | None => safeSend targetJid (couldNotRestore notice)
           | Some r =>
             let cap := extractText (getContentType host) (message (container r)) in
             match detectMediaKind (getContentType host) (message (container r)) with
             | None =>
               let txt := if nonEmpty cap then cap else "(no text content)" in
               safeSend targetJid (textNotice notice txt)
             | Some kind =>
               tryCatch
                 (buffer <- callDownload (container r) ;;
                  let outgoing := buildOutgoingContent kind buffer cap in
                  safeSend targetJid (TextContent notice) ;;;
                  safeSend targetJid outgoing)
                 (safeSend targetJid (mediaNotRestored notice))
             end
           end) w
    end.

(** [pm && pm.type === 0 && pm.key]: the key a revoke notification
    carries. *)
Definition revokeTarget (m : option Message) : option MessageKey :=
  match m with
  | None => None
  | Some msg =>
    match protocolMessage msg with
    | None => None
    | Some pm =>
      match pm_type pm with
      | Some 0 => pm_key pm
      | _ => None
      end
    end
  end.

(** The body of the loop of [onUpsert], inside its [try]/[catch]. *)
Definition upsertOne (m : WAMessage) : Task unit :=
  tryCatch
    (match revokeTarget (message m) with
     | Some rk =>
       let revokerJid :=
       orElse (orElse (optField participant (key m)) (optField remoteJid (key m))) None in
       handleRevoke (Some rk) revokerJid
     | None =>
       fun w =>
         if negb (enabled w) then ret tt w
         else if negb (present (message m)) then ret tt w
         else cacheAdd (key m) m
                (orElse (optField participant (key m)) (optField remoteJid (key m))) w
     end)
    (ret tt).

Fixpoint onUpsert (messages : list WAMessage) : Task unit :=
  match messages with
  | [] => ret tt
  | m :: rest => upsertOne m ;;; onUpsert rest
  end.

(** The body of the loop of [onUpdate]. *)
Definition updateOne (u : MessageUpdate) : Task unit :=
  tryCatch
    (match revokeTarget (match update u with Some p => message p | None => None end) with
     | Some rk => handleRevoke (Some rk) None
     | None => ret tt
     end)
    (ret tt).

Fixpoint onUpdate (updates : list MessageUpdate) : Task unit :=
  match updates with
  | [] => ret tt
  | u :: rest => updateOne u ;;; onUpdate rest
  end.

End Handlers.

(** *** The controller [attachAntiDelete] returns *)

Definition enable (w : World) : World :=
  {| enabled := true; forwardToJid := forwardToJid w; cache := cache w;
     log := log w; steps := steps w |}.

Definition disable (w : World) : World :=
  {| enabled := false; forwardToJid := forwardToJid w; cache := cache w;
     log := log w; steps := steps w |}.

Definition isEnabled (w : World) : bool := enabled w.

Definition setForwardToJid (jid : option string) (w : World) : World :=
  {| enabled := enabled w; forwardToJid := if truthy jid then jid else None;
     cache := cache w; log := log w; steps := steps w |}.

(** [stop()]: the listeners and the sweep timer are outside this model; what
    remains is [cache.clear()]. *)
Definition stop (w : World) : World := withCache (clear (cache w)) w.

(* ------------------------------------------------------------------ *)
(** ** Vocabulary of the statements *)

(** The attempts of one wrapped send of [content] to [jid]: the branded
    primitive once, and the bare one once if and only if the first threw. *)
Definition wrappedSend (jid : string) (content : Content) (l : list Attempt) : Prop :=
  l = [mkAttempt Branded jid content true]
  \/ exists b, l = [mkAttempt Branded jid content false; mkAttempt Bare jid content b].

(** [deleterJid] and [targetJid] as [handleRevoke] computes them. *)
Definition deleterOf (rk : MessageKey) (revokerJid : option string) : string :=
  orEmpty (orElse revokerJid (orElse (participant rk) (remoteJid rk))).

Definition targetOf (w : World) (rk : MessageKey) : string :=
  orEmpty (orElse (forwardToJid w) (remoteJid rk)).

(** The header [buildNoticeText] returns when it runs as host interaction
    number [n]. *)
Definition noticeAt (host : Host) (options : Options) (n : nat)
           (deleterJid chatId : string) : string :=
  match notifyText options with
  | Some customBuilder => customBuilder deleterJid chatId
  | None => defaultNotice deleterJid chatId (toLocaleString host n)
  end.

(** The world differs from [w] in the send log and the interaction count
    only. *)
Definition sameState (w w' : World) : Prop :=
  enabled w' = enabled w /\ forwardToJid w' = forwardToJid w /\ cache w' = cache w.

(** The record [add] creates. *)
Definition added (t : Z) (cont : WAMessage) (a : option string) (c : MessageCache) : Rec :=
  mkRec (nextRid c) t cont a.

Definition rids (m : JSMap.t Rec) : list nat := map rid (JSMap.values m).

Definition olderOrSame (e e' : string * Rec) : Prop := at_ (snd e) <= at_ (snd e').

(** [r] is held by some index of [c]. *)
Definition cached (r : Rec) (c : MessageCache) : Prop :=
  In r (JSMap.values (strictMap c))
  \/ In r (JSMap.values (looseMap c))
  \/ In r (JSMap.values (idMap c)).

(** One call [cache.add(key, container, authorJid)] and the clock reading
    it takes. *)
Record AddOp := mkAddOp {
  op_now : Z;
  op_key : option MessageKey;
  op_container : WAMessage;
  op_author : option string
}.

Definition applyAdd (c : MessageCache) (op : AddOp) : MessageCache :=
  add (op_now op) (op_key op) (op_container op) (op_author op) c.

Definition replay (ops : list AddOp) (c : MessageCache) : MessageCache :=
  fold_left applyAdd ops c.

Definition strictOf (op : AddOp) : string := strict (makeKeys (op_key op)).

(** What holds of a cache filled by inserts under pairwise distinct strict
    keys, [seen] being the strict keys used so far. *)
Record Inv (seen : list string) (c : MessageCache) : Prop := mkInv {
  inv_keys : incl (JSMap.keys (strictMap c)) seen;
  inv_strict : NoDup (rids (strictMap c));
  inv_loose : NoDup (rids (looseMap c));
  inv_id : NoDup (rids (idMap c));
  inv_loose_in : incl (JSMap.values (looseMap c)) (JSMap.values (strictMap c));
  inv_id_in : incl (JSMap.values (idMap c)) (JSMap.values (strictMap c));
  inv_fresh : forall r, In r (JSMap.values (strictMap c)) -> (rid r < nextRid c)%nat
}.

(* ------------------------------------------------------------------ *)
(** ** Concrete caches, hosts and runs *)

(** Message ids: the binary digits of a counter, lowest first. *)
Fixpoint serial (p : positive) : string :=
  match p with
  | xH => "1"
  | xO q => String "0" (serial q)
  | xI q => String "1" (serial q)
  end.

Definition demoKey (i : nat) : option MessageKey :=
  Some (mkKey (Some "g1@g.us") (Some (serial (Pos.of_succ_nat i))) None).

Definition demoMessage (i : nat) : WAMessage :=
  mkWAMessage (demoKey i) (Some (textMessage "hi")).

(** The [i]-th insert, made at time [i]. *)
Definition demoOp (i : nat) : AddOp :=
  mkAddOp (Z.of_nat i) (demoKey i) (demoMessage i) None.

Definition demoOps (n : nat) : list AddOp := map demoOp (seq 0 n).

Definition demoRec (i : nat) : Rec := mkRec i (Z.of_nat i) (demoMessage i) None.

(** The cache after the first [n] inserts, as long as none of them evicts. *)
Definition demoCache (n : nat) : MessageCache :=
  {| ttlMs := DEFAULT_TTL_MS;
     strictMap := map (fun i => (strict (makeKeys (demoKey i)), demoRec i)) (seq 0 n);
     looseMap := map (fun i => (loose (makeKeys (demoKey i)), demoRec i)) (seq 0 n);
     idMap := map (fun i => (idOnly (makeKeys (demoKey i)), demoRec i)) (seq 0 n);
     nextRid := n |}.

Definition demoLast : nat := Z.to_nat 5000.
Definition demoCount : nat := S demoLast.

(** A host whose branded send always throws, whose bare send resolves and
    whose media download always throws. *)
Definition flakyHost : Host :=
  {| getContentType := fun m => if truthy (conversation m) then Some "conversation" else None;
     dateNow := fun n => Z.of_nat n * 1000;
     toLocaleString := fun _ => "1/1/2026, 12:00:00 AM";
     downloadMediaMessage := fun _ _ => None;
     sendWithChannel := fun _ _ _ => false;
     sendMessage := fun _ _ _ => true |}.

Definition plainOptions : Options :=
  {| opt_ttlMs := None; notifyText := None; opt_forwardToJid := Some "owner@s.whatsapp.net" |}.

Definition keyC1M1 (p : option string) : MessageKey :=
  mkKey (Some "C1") (Some "M1") p.

(** Scenario A: "hello" observed in chat C1 under id M1, no participant. *)
Definition helloMessage : WAMessage :=
  mkWAMessage (Some (keyC1M1 (Some ""))) (Some (textMessage "hello")).

(** Scenario C: an image with caption "pic". *)
Definition picMessage : WAMessage :=
  mkWAMessage (Some (keyC1M1 (Some "")))
    (Some (mkMessage None None None None None None (Some (mkCaptioned (Some "pic")))
                     None None None None None None None)).

(** The world after one batch of observed messages. *)
Definition observed (ms : list WAMessage) (w : World) : World :=
  snd (onUpsert flakyHost plainOptions ms w).

Definition freshWorld : World := attachAntiDelete plainOptions.

(** Two participants of one chat used the same message id. *)
Definition twoSenders : MessageCache :=
  add 1 (Some (keyC1M1 (Some "P2")))
        (mkWAMessage (Some (keyC1M1 (Some "P2"))) (Some (textMessage "second"))) None
    (add 0 (Some (keyC1M1 (Some "P1")))
           (mkWAMessage (Some (keyC1M1 (Some "P1"))) (Some (textMessage "first"))) None
       (newCache 1000)).

(** The archive after "hello" was observed, and after the picture was. *)
Definition helloWorld : World := observed [helloMessage] freshWorld.
Definition picWorld : World := observed [picMessage] freshWorld.

(* ------------------------------------------------------------------ *)
(** ** Further vocabulary *)

(** The four wrapper fields [resolveContentNode] follows. *)
Inductive WrapperKind := Ephemeral | ViewOnce | ViewOnceV2 | ViewOnceV2Extension.

(** A message that carries [inner] in the wrapper field [k] and nothing
    else. *)
Definition wrapIn (k : WrapperKind) (inner : Message) : Message :=
  let w := Some (mkWrapper (Some inner)) in
  match k with
  | Ephemeral =>
    mkMessage w None None None None None None None None None None None None None
  | ViewOnce =>
    mkMessage None w None None None None None None None None None None None None
  | ViewOnceV2 =>
    mkMessage None None w None None None None None None None None None None None
  | ViewOnceV2Extension =>
    mkMessage None None None w None None None None None None None None None None
  end.

(** [inner] under the layers [ks], outermost first. *)
Definition wrapAll (ks : list WrapperKind) (inner : Message) : Message :=
  fold_right wrapIn inner ks.

(** [now - v.at > this.ttlMs] *)
Definition expired (now : Z) (c : MessageCache) (r : Rec) : bool :=
  ttlMs c <? now - at_ r.

(** The string has no occurrence of the character [ch]. *)
Fixpoint lacks (ch : ascii) (s : string) : bool :=
  match s with
  | EmptyString => true
  | String c rest => negb (Ascii.eqb c ch) && lacks ch rest
  end.

(** The three fields of a key as [makeKeys] reads them. *)
Definition fieldsOf (k : option MessageKey) : string * string * string :=
  (orEmpty (optField remoteJid k), orEmpty (optField id k),
   orEmpty (optField participant k)).

(** An observed message that [onUpsert] archives while enabled: it has
    content and is not a revoke notice. *)
Definition archivable (m : WAMessage) : bool :=
  present (message m) && negb (present (revokeTarget (message m))).

(** A revoke notice for [target] as it arrives in [messages.upsert],
    reported under [reporter]. *)
Definition revokeNotice (reporter : option MessageKey) (target : MessageKey) : WAMessage :=
  mkWAMessage reporter
    (Some (mkMessage None None None None None None None None None None None None None
                     (Some (mkProtocolMessage (Some 0) (Some target))))).

(** *** Helpers of the bot that attaches the handlers *)

Definition isDigit (c : ascii) : bool :=
  let n := nat_of_ascii c in (48 <=? n)%nat && (n <=? 57)%nat.

(** [s.replace(/[^0-9]/g, '')] *)
Fixpoint digitsOnly (s : string) : string :=
  match s with
  | EmptyString => EmptyString
  | String c rest => if isDigit c then String c (digitsOnly rest) else digitsOnly rest
  end.

(** [formatJid(number)] for a string argument. *)
Definition formatJid (number : string) : string :=
  digitsOnly number ++ "@s.whatsapp.net".

(** [normalizeNumber(input)] for a string argument. *)
Definition normalizeNumber (input : string) : string :=
  if nonEmpty input then digitsOnly input else "".

(** A host on which every call succeeds; the download yields the bytes
    "JPEG". *)
Definition steadyHost : Host :=
  {| getContentType := fun _ => None;
     dateNow := fun n => Z.of_nat n * 1000;
     toLocaleString := fun _ => "1/1/2026, 12:00:00 AM";
     downloadMediaMessage := fun _ _ => Some "JPEG";
     sendWithChannel := fun _ _ _ => true;
     sendMessage := fun _ _ _ => true |}.

(** [m] without the entries that hold one of the records [vs] (by
    identity). *)
Definition withoutRecs (vs : list Rec) (m : JSMap.t Rec) : JSMap.t Rec :=
  JSMap.deleteWhere (fun r => existsb (fun v => sameRec v r) vs) m.

(** The author [onUpsert] passes to [cache.add]:
    [m.key?.participant || m.key?.remoteJid]. *)
Definition authorOf (m : WAMessage) : option string :=
  orElse (optField participant (key m)) (optField remoteJid (key m)).

(** The inserts a batch of observed messages amounts to while enabled: one
    for each message [onUpsert] archives, in batch order, under the key of
    the message, holding the whole message, at the clock readings number
    [n], [n + 1], ... *)
Fixpoint archiveOps (host : Host) (n : nat) (messages : list WAMessage) : list AddOp :=
  match messages with
  | [] => []
  | m :: rest =>
    if archivable m
    then mkAddOp (dateNow host n) (key m) m (authorOf m) :: archiveOps host (S n) rest
    else archiveOps host n rest
  end.

(** Two identities with the same strict key but different loose keys (the
    participant of the first and the message id of the second contain the
    separator): the second insert takes over the strict entry and leaves the
    first record in the loose and id-only indexes only. *)
Definition collidingCache : MessageCache :=
  add 1 (Some (mkKey (Some "a") (Some "b|c") (Some "d")))
        (mkWAMessage (Some (mkKey (Some "a") (Some "b|c") (Some "d")))
                     (Some (textMessage "second"))) None
    (add 0 (Some (mkKey (Some "a") (Some "b") (Some "c|d")))
           (mkWAMessage (Some (mkKey (Some "a") (Some "b") (Some "c|d")))
                        (Some (textMessage "first"))) None
       (newCache 1000)).

(** An observed message whose content has no field set. *)
Definition blankMessage : WAMessage :=
  mkWAMessage (Some (keyC1M1 (Some ""))) (Some emptyMessage).

Definition blankWorld : World := observed [blankMessage] freshWorld.

(* ------------------------------------------------------------------ *)
(** ** Content resolver *)

Section ResolverFacts.

Variable gct : Message -> option string.

Lemma resolveWithin_present depth msg :
  resolveWithin gct depth (Some msg) =
  if (depth <=? wrapperDepth msg)%nat then None else Some (resolvePresent gct msg).
Proof.
  revert msg.
  induction depth as [|d IH]; intros msg; [reflexivity|].
  destruct msg as [e v1 v2 v3 c x i v s a dm ll lm p].
  assert (W : forall w : Wrapper,
             resolveWithin gct d (w_message w) =
             if (S d <=? match w_message w with
                         | None => 1
                         | Some inner => S (wrapperDepth inner)
                         end)%nat
             then None
             else Some match w_message w with
                       | None => noContent
                       | Some inner => resolvePresent gct inner
                       end).
  { intros [[inner|]].
    - cbn [w_message]. rewrite IH.
      change (S d <=? S (wrapperDepth inner))%nat with (d <=? wrapperDepth inner)%nat.
      reflexivity.
    - cbn [w_message]. destruct d; reflexivity. }
  cbn [resolveWithin resolvePresent wrapperDepth ephemeralMessage viewOnceMessage
       viewOnceMessageV2 viewOnceMessageV2Extension].
  destruct e as [w|]; [apply W|].
  destruct v1 as [w|]; [apply W|].
  destruct v2 as [w|]; [apply W|].
  destruct v3 as [w|]; [apply W|].
  reflexivity.
Qed.

Lemma resolvePresent_ephemeralNest n msg :
  resolvePresent gct (ephemeralNest n msg) = resolvePresent gct msg.
Proof. induction n as [|n IH]; [reflexivity|]. cbn. exact IH. Qed.

Lemma wrapperDepth_ephemeralNest n msg :
  wrapperDepth (ephemeralNest n msg) = (n + wrapperDepth msg)%nat.
Proof. induction n as [|n IH]; [reflexivity|]. cbn. now rewrite IH. Qed.

Lemma resolvePresent_not_wrapper msg n :
  node (resolvePresent gct msg) = Some n -> isWrapper n = false.
Proof.
  revert n.
  induction msg as [msg H] using
    (well_founded_induction (well_founded_ltof _ wrapperDepth)).
  intros n.
  destruct msg as [e v1 v2 v3 c x i v s a dm ll lm p].
  assert (W : forall w : Wrapper,
             (match w_message w with
              | None => 1
              | Some inner => S (wrapperDepth inner)
              end <= wrapperDepth (mkMessage e v1 v2 v3 c x i v s a dm ll lm p))%nat ->
             node match w_message w with
                  | None => noContent
                  | Some inner => resolvePresent gct inner
                  end = Some n -> isWrapper n = false).
  { intros [[inner|]]; cbn [w_message]; intros Hd Hn.
    - apply (H inner); [unfold ltof; lia | exact Hn].
    - discriminate Hn. }
  cbn [resolvePresent wrapperDepth ephemeralMessage viewOnceMessage
       viewOnceMessageV2 viewOnceMessageV2Extension] in *.
  destruct e as [w|]; [apply W; lia|].
  destruct v1 as [w|]; [apply W; lia|].
  destruct v2 as [w|]; [apply W; lia|].
  destruct v3 as [w|]; [apply W; lia|].
  cbn. intros E. injection E as <-. reflexivity.
Qed.

End ResolverFacts.

(** C2 (as stated, refuted): no depth bound exists beyond which the resolver
    gives up; whatever bound is proposed, an envelope nested one layer deeper
    is still resolved to its innermost node instead of being treated as
    unsupported. *)
Lemma resolver_has_no_depth_bound :
  ~ exists bound : nat,
      forall (gct : Message -> option string) (m : option Message),
        (bound < envelopeDepth m)%nat -> resolveContentNode gct m = noContent.
Proof.
  intros [bound H].
  specialize (H (fun _ => None) (Some (ephemeralNest (S bound) (textMessage "hi")))).
  cbn [envelopeDepth resolveContentNode] in H.
  rewrite wrapperDepth_ephemeralNest, resolvePresent_ephemeralNest in H.
  assert (L : (bound < S bound + wrapperDepth (textMessage "hi"))%nat) by lia.
  specialize (H L). discriminate H.
Qed.

(** C2 (amended): on every envelope the resolver returns, after exactly one
    nested call per wrapper layer (a budget of [depth] nested calls suffices
    if and only if [depth] exceeds the number of layers, whatever that number
    is), and the node it returns, if any, is not a wrapper. *)
Theorem resolveContentNode_terminates :
  forall (gct : Message -> option string) (m : option Message) (depth : nat),
    resolveWithin gct depth m =
      (if (depth <=? envelopeDepth m)%nat then None
       else Some (resolveContentNode gct m))
    /\ match node (resolveContentNode gct m) with
       | Some n => isWrapper n = false
       | None => True
       end.
Proof.
  intros gct [msg|] depth; cbn [envelopeDepth resolveContentNode].
  - split.
    + apply resolveWithin_present.
    + destruct (node (resolvePresent gct msg)) as [n|] eqn:E; [|exact I].
      eapply resolvePresent_not_wrapper; eassumption.
  - split; [destruct depth; reflexivity | exact I].
Qed.

(* ------------------------------------------------------------------ *)
(** ** Expiry at lookup *)

(** An expired first hit is always answered with a miss. *)
Lemma expired_hit_is_miss now k c r :
  firstHit (makeKeys k) c = Some r ->
  ttlMs c < now - at_ r ->
  fst (getByRevokedKey now k c) = None.
Proof.
  intros Hh Ht. unfold getByRevokedKey. rewrite Hh.
  apply Z.ltb_lt in Ht. rewrite Ht. reflexivity.
Qed.

(** C1 (the code at the failing input): a record archived under
    (C1, M1, no participant) and looked up after its TTL through the key
    (C1, M1, P9) is reached by the loose index; the lookup answers with a
    miss, but the purge uses the lookup's own strict key, so the record stays
    in [strictMap] under the key it was stored with. *)
Theorem expired_loose_hit_leaves_strict_entry :
  let stored := Some (mkKey (Some "C1") (Some "M1") (Some "")) in
  let revoked := Some (mkKey (Some "C1") (Some "M1") (Some "P9")) in
  let c := add 0 stored (mkWAMessage stored (Some (textMessage "hello"))) None
               (newCache 1000) in
  firstHit (makeKeys revoked) c = JSMap.get "C1|M1" (looseMap c)
  /\ option_map rid (firstHit (makeKeys revoked) c) = Some O
  /\ fst (getByRevokedKey 2000 revoked c) = None
  /\ reachable O (snd (getByRevokedKey 2000 revoked c)) = true
  /\ option_map rid (JSMap.get "C1|M1|" (strictMap (snd (getByRevokedKey 2000 revoked c))))
     = Some O.
Proof. repeat split. Qed.

(* ------------------------------------------------------------------ *)
(** ** The wrapped send *)

Lemma safeSend_spec host jid content w :
  exists attempts w',
    safeSend host jid content w = (Returned tt, w')
    /\ log w' = (log w ++ attempts)%list
    /\ sameState w w'
    /\ wrappedSend jid content attempts.
Proof.
  unfold safeSend, tryCatch, callSendWithChannel, callSendMessage, ret, wrappedSend, sameState.
  destruct (sendWithChannel host (steps w) jid content) eqn:E1.
  - eexists _, _. split; [reflexivity|]. cbn. split; [reflexivity|].
    split; [auto|]. left. reflexivity.
  - cbn [logged steps].
    destruct (sendMessage host (S (steps w)) jid content) eqn:E2;
      (eexists _, _; split; [reflexivity|]; cbn; rewrite <- app_assoc; cbn;
       split; [reflexivity|]; split; [auto|]; right; eexists; reflexivity).
Qed.

(* ------------------------------------------------------------------ *)
(** ** Recovery *)

Section Recovery.

Variable host : Host.
Variable options : Options.

(** The header is built on a world whose log is still the caller's. *)
Lemma buildNoticeText_spec deleterJid chatId w :
  exists w',
    buildNoticeText host options deleterJid chatId w
    = (Returned (noticeAt host options (steps w) deleterJid chatId), w')
    /\ log w' = log w /\ sameState w w'.
Proof.
  unfold buildNoticeText, noticeAt, sameState.
  destruct (notifyText options) as [f|].
  - exists w. cbn. auto.
  - exists (tick w). cbn. auto.
Qed.

Lemma cacheGet_spec k w :
  cacheGet host k w
  = (Returned (fst (getByRevokedKey (dateNow host (steps w)) k (cache w))),
     withCache (snd (getByRevokedKey (dateNow host (steps w)) k (cache w))) (tick w)).
Proof.
  unfold cacheGet, bind, now. cbn.
  destruct (getByRevokedKey (dateNow host (steps w)) k (cache w)); reflexivity.
Qed.

(** [handleRevoke] past its guards: the lookup, then the header, then the
    continuation on the looked-up record. *)
Lemma handleRevoke_unfold rk revoker w :
  enabled w = true ->
  truthy (remoteJid rk) = true ->
  exists w1,
    log w1 = log w
    /\ forwardToJid w1 = forwardToJid w
    /\ enabled w1 = enabled w
    /\ cache w1 = snd (getByRevokedKey (dateNow host (steps w)) (Some rk) (cache w))
    /\ handleRevoke host options (Some rk) revoker w =
       (let notice := noticeAt host options (S (steps w)) (deleterOf rk revoker)
                               (orEmpty (remoteJid rk)) in
        let targetJid := targetOf w rk in
        match fst (getByRevokedKey (dateNow host (steps w)) (Some rk) (cache w)) with
        | None => safeSend host targetJid (couldNotRestore notice)
        | Some r =>
          let cap := extractText (getContentType host) (message (container r)) in
          match detectMediaKind (getContentType host) (message (container r)) with
          | None =>
            safeSend host targetJid
                     (textNotice notice (if nonEmpty cap then cap else "(no text content)"))
          | Some kind =>
            tryCatch
              (buffer <- callDownload host (container r) ;;
               safeSend host targetJid (TextContent notice) ;;;
               safeSend host targetJid (buildOutgoingContent kind buffer cap))
              (safeSend host targetJid (mediaNotRestored notice))
          end
        end) w1.
Proof.
  intros He Hc. unfold handleRevoke. rewrite He, Hc. cbn [negb].
  unfold bind at 1. rewrite cacheGet_spec.
  set (hit := getByRevokedKey (dateNow host (steps w)) (Some rk) (cache w)).
  unfold bind at 1.
  destruct (buildNoticeText_spec (deleterOf rk revoker) (orEmpty (remoteJid rk))
              (withCache (snd hit) (tick w))) as (w1 & E & Hl & Hs1 & Hs2 & Hs3).
  fold (deleterOf rk revoker). rewrite E.
  exists w1. cbn in Hl, Hs1, Hs2, Hs3.
  repeat split; try assumption; congruence.
Qed.

(** C10: a revoke notice whose key has no chat id (absent or empty
    [remoteJid]) makes [handleRevoke] return at once: nothing is sent, and
    neither the cache nor anything else changes, whatever the flag and
    whatever the cache holds. *)
Theorem handleRevoke_without_chat_id :
  forall (rk : MessageKey) (revoker : option string) (w : World),
    truthy (remoteJid rk) = false ->
    handleRevoke host options (Some rk) revoker w = (Returned tt, w).
Proof.
  intros rk revoker w H. unfold handleRevoke. rewrite H.
  destruct (enabled w); reflexivity.
Qed.

(** C8: with the feature enabled, a revoke notice that has a chat id and
    whose lookup misses makes [handleRevoke] return normally after exactly
    one wrapped send, to the forward target or else the chat, of the header
    followed by the could-not-restore marker. *)
Theorem handleRevoke_miss :
  forall (rk : MessageKey) (revoker : option string) (w : World),
    enabled w = true ->
    truthy (remoteJid rk) = true ->
    fst (getByRevokedKey (dateNow host (steps w)) (Some rk) (cache w)) = None ->
    exists attempts w',
      handleRevoke host options (Some rk) revoker w = (Returned tt, w')
      /\ log w' = (log w ++ attempts)%list
      /\ wrappedSend (targetOf w rk)
           (TextContent
              (noticeAt host options (S (steps w)) (deleterOf rk revoker)
                        (orEmpty (remoteJid rk))
               ++ String "010" "(Couldn't restore content)"))
           attempts.
Proof.
  intros rk revoker w He Hc Hm.
  destruct (handleRevoke_unfold rk revoker w He Hc) as (w1 & Hl & _ & _ & _ & E).
  rewrite E, Hm. cbn zeta.
  destruct (safeSend_spec host (targetOf w rk)
              (couldNotRestore (noticeAt host options (S (steps w)) (deleterOf rk revoker)
                                         (orEmpty (remoteJid rk)))) w1)
    as (attempts & w' & Es & Hl' & _ & Hw).
  exists attempts, w'. rewrite Es, Hl', Hl. auto.
Qed.

(** C9: with the feature enabled, when the lookup hits a record with a
    media kind and the download throws, [handleRevoke] returns normally
    after exactly one wrapped send carrying the header and the
    media-could-not-be-restored marker, so no attempt carries media; and
    every wrapped send returns normally after the branded attempt, followed
    by one bare attempt exactly when the branded one threw. *)
Theorem handleRevoke_media_download_fails :
  forall (rk : MessageKey) (revoker : option string) (w : World) (r : Rec)
         (kind : MediaKind),
    enabled w = true ->
    truthy (remoteJid rk) = true ->
    fst (getByRevokedKey (dateNow host (steps w)) (Some rk) (cache w)) = Some r ->
    detectMediaKind (getContentType host) (message (container r)) = Some kind ->
    (forall n, downloadMediaMessage host n (container r) = None) ->
    (exists attempts w',
       handleRevoke host options (Some rk) revoker w = (Returned tt, w')
       /\ log w' = (log w ++ attempts)%list
       /\ wrappedSend (targetOf w rk)
            (TextContent
               (noticeAt host options (S (steps w)) (deleterOf rk revoker)
                         (orEmpty (remoteJid rk))
                ++ String "010" "(Media could not be restored)"))
            attempts
       /\ Forall (fun a => exists body, payload a = TextContent body) attempts)
    /\ (forall jid content w0,
          exists attempts w1,
            safeSend host jid content w0 = (Returned tt, w1)
            /\ log w1 = (log w0 ++ attempts)%list
            /\ wrappedSend jid content attempts).
Proof.
  intros rk revoker w r kind He Hc Hh Hk Hd. split.
  - destruct (handleRevoke_unfold rk revoker w He Hc) as (w1 & Hl & _ & _ & _ & E).
    rewrite E, Hh. cbn zeta. rewrite Hk.
    unfold tryCatch at 1, bind at 1, callDownload at 1. rewrite Hd.
    destruct (safeSend_spec host (targetOf w rk)
                (mediaNotRestored (noticeAt host options (S (steps w)) (deleterOf rk revoker)
                                            (orEmpty (remoteJid rk)))) (tick w1))
      as (attempts & w' & Es & Hl' & _ & Hw).
    exists attempts, w'. rewrite Es, Hl'. cbn [tick log]. rewrite Hl.
    repeat split; [exact Hw|].
    destruct Hw as [-> | [b ->]]; repeat constructor; eexists; reflexivity.
  - intros jid content w0.
    destruct (safeSend_spec host jid content w0) as (attempts & w1 & Es & Hl & _ & Hw).
    eauto.
Qed.

End Recovery.

(* ------------------------------------------------------------------ *)
(** ** Map and cache facts *)

Lemma get_set_same {V} k (v : V) m : JSMap.get k (JSMap.set k v m) = Some v.
Proof.
  induction m as [|[k' v'] m IH]; cbn.
  - now rewrite String.eqb_refl.
  - destruct (String.eqb k k') eqn:E; cbn; rewrite ?String.eqb_refl, ?E; auto.
Qed.

Lemma get_set_other {V} k k' (v : V) m :
  k' <> k -> JSMap.get k' (JSMap.set k v m) = JSMap.get k' m.
Proof.
  intros N. apply String.eqb_neq in N.
  induction m as [|[k0 v0] m IH]; cbn.
  - now rewrite N.
  - destruct (String.eqb k k0) eqn:E; cbn.
    + apply String.eqb_eq in E. subst k0. now rewrite N.
    + now rewrite IH.
Qed.

Lemma dropRec_fold_fields vs c :
  ttlMs (fold_left dropRec vs c) = ttlMs c
  /\ nextRid (fold_left dropRec vs c) = nextRid c.
Proof.
  revert c. induction vs as [|v vs IH]; intros c; cbn; [auto|].
  destruct (IH (dropRec c v)) as [-> ->]. auto.
Qed.

Lemma evictOldest_ttlMs n c : ttlMs (evictOldest n c) = ttlMs c.
Proof. apply dropRec_fold_fields. Qed.

Lemma evictOldest_nextRid n c : nextRid (evictOldest n c) = nextRid c.
Proof. apply dropRec_fold_fields. Qed.

Lemma add_ttlMs t k cont a c : ttlMs (add t k cont a c) = ttlMs c.
Proof.
  unfold add. cbn [ttlMs].
  destruct (MAX_CACHE * 3 <? totalSize c); [apply evictOldest_ttlMs | reflexivity].
Qed.

Lemma add_strict t k cont a c :
  JSMap.get (strict (makeKeys k)) (strictMap (add t k cont a c)) = Some (added t cont a c).
Proof.
  unfold add, added. cbn [strictMap]. rewrite get_set_same.
  destruct (MAX_CACHE * 3 <? totalSize c); [rewrite evictOldest_nextRid|]; reflexivity.
Qed.

Lemma add_loose t k cont a c :
  JSMap.get (loose (makeKeys k)) (looseMap (add t k cont a c)) = Some (added t cont a c).
Proof.
  unfold add, added. cbn [looseMap]. rewrite get_set_same.
  destruct (MAX_CACHE * 3 <? totalSize c); [rewrite evictOldest_nextRid|]; reflexivity.
Qed.

(** A hit that has not outlived the TTL is returned and the cache is left
    as it was. *)
Lemma fresh_hit now k c r :
  firstHit (makeKeys k) c = Some r ->
  now - at_ r <= ttlMs c ->
  getByRevokedKey now k c = (Some r, c).
Proof.
  intros Hh Ht. unfold getByRevokedKey. rewrite Hh.
  assert (E : (ttlMs c <? now - at_ r) = false) by (apply Z.ltb_ge; exact Ht).
  now rewrite E.
Qed.

(** Looking up the identity just archived returns the record just created. *)
Lemma lookup_after_add t t' k cont a c :
  t' - t <= ttlMs c ->
  getByRevokedKey t' k (add t k cont a c) = (Some (added t cont a c), add t k cont a c).
Proof.
  intros Ht. apply fresh_hit.
  - unfold firstHit. now rewrite add_strict.
  - rewrite add_ttlMs. exact Ht.
Qed.

(* ------------------------------------------------------------------ *)
(** ** Archiving and the feature flag *)

Section Archiving.

Variable host : Host.
Variable options : Options.

(** While enabled, an observed message that is not a revoke notice and has
    content is archived verbatim at the current time; nothing is sent. *)
Lemma upsertOne_archives m w :
  enabled w = true ->
  revokeTarget (message m) = None ->
  present (message m) = true ->
  upsertOne host options m w
  = (Returned tt,
     withCache (add (dateNow host (steps w)) (key m) m
                    (orElse (optField participant (key m)) (optField remoteJid (key m)))
                    (cache w))
               (tick w)).
Proof.
  intros He Hr Hp. unfold upsertOne, tryCatch. rewrite Hr, He, Hp. reflexivity.
Qed.

(** While disabled, a batch of observed messages, revoke notices included,
    changes nothing at all. *)
Lemma onUpsert_disabled ms w :
  enabled w = false ->
  onUpsert host options ms w = (Returned tt, w).
Proof.
  intros He. induction ms as [|m ms IH]; [reflexivity|].
  cbn [onUpsert]. unfold bind.
  assert (E : upsertOne host options m w = (Returned tt, w)).
  { unfold upsertOne, tryCatch.
    destruct (revokeTarget (message m)) as [rk|].
    - unfold handleRevoke. now rewrite He.
    - now rewrite He. }
  rewrite E. exact IH.
Qed.

(** C6: disabling and re-enabling leave the cache as it is, so every lookup
    answers as before; while disabled, a batch of observed messages inserts
    nothing (the state, the cache included, is unchanged and nothing is
    sent); after re-enabling, an observed message that is not a revoke
    notice is archived and a lookup of its key within the TTL returns it. *)
Theorem disabled_flag_freezes_archive :
  forall (w : World) (ms : list WAMessage),
    cache (disable w) = cache w
    /\ onUpsert host options ms (disable w) = (Returned tt, disable w)
    /\ cache (enable (disable w)) = cache w
    /\ (forall t k,
          getByRevokedKey t k (cache (disable w)) = getByRevokedKey t k (cache w)
          /\ getByRevokedKey t k (cache (enable (disable w))) = getByRevokedKey t k (cache w))
    /\ (forall m t,
          revokeTarget (message m) = None ->
          present (message m) = true ->
          t - dateNow host (steps w) <= ttlMs (cache w) ->
          exists w1 r,
            onUpsert host options [m] (enable (disable w)) = (Returned tt, w1)
            /\ fst (getByRevokedKey t (key m) (cache w1)) = Some r
            /\ container r = m
            /\ at_ r = dateNow host (steps w)).
Proof.
  intros w ms. split; [reflexivity|]. split; [now apply onUpsert_disabled|].
  split; [reflexivity|]. split; [intros; split; reflexivity|].
  intros m t Hr Hp Ht.
  set (author := orElse (optField participant (key m)) (optField remoteJid (key m))).
  exists (withCache (add (dateNow host (steps w)) (key m) m author (cache w))
                    (tick (enable (disable w)))),
         (added (dateNow host (steps w)) m author (cache w)).
  cbn [onUpsert]. unfold bind.
  rewrite upsertOne_archives by (assumption || reflexivity).
  split; [reflexivity|].
  cbn [withCache cache]. rewrite lookup_after_add by exact Ht.
  cbn. auto.
Qed.

(** A record whose content is text only has its text in the conversation
    body or in the extended-text body. *)
Lemma text_only_source gct (m : option Message) :
  detectMediaKind gct m = None ->
  extractText gct m <> "" ->
  exists n,
    node (resolveContentNode gct m) = Some n
    /\ (extractText gct m = orEmpty (conversation n)
        \/ exists e, extendedTextMessage n = Some e
                     /\ extractText gct m = orEmpty (text e)).
Proof.
  unfold detectMediaKind, extractText.
  destruct (node (resolveContentNode gct m)) as [n|]; [|intros _ H; now elim H].
  intros Hk Ht. exists n. split; [reflexivity|].
  destruct (imageMessage n); [discriminate Hk|].
  destruct (videoMessage n); [cbn in Hk; discriminate Hk|].
  destruct (truthy (conversation n)); [now left|].
  destruct (extendedTextMessage n) as [e|].
  - destruct (truthy (text e)); [right; eauto | cbn in Ht; now elim Ht].
  - cbn in Ht. now elim Ht.
Qed.

Lemma handleRevoke_text_hit rk revoker w r :
  enabled w = true ->
  truthy (remoteJid rk) = true ->
  fst (getByRevokedKey (dateNow host (steps w)) (Some rk) (cache w)) = Some r ->
  detectMediaKind (getContentType host) (message (container r)) = None ->
  extractText (getContentType host) (message (container r)) <> "" ->
  exists attempts w',
    handleRevoke host options (Some rk) revoker w = (Returned tt, w')
    /\ log w' = (log w ++ attempts)%list
    /\ wrappedSend (targetOf w rk)
         (TextContent
            (noticeAt host options (S (steps w)) (deleterOf rk revoker)
                      (orEmpty (remoteJid rk))
             ++ String "010" (String "010"
                  (extractText (getContentType host) (message (container r))))))
         attempts.
Proof.
  intros He Hc Hh Hk Ht.
  destruct (handleRevoke_unfold host options rk revoker w He Hc) as (w1 & Hl & _ & _ & _ & E).
  rewrite E, Hh. cbn zeta. rewrite Hk.
  assert (Hn : nonEmpty (extractText (getContentType host) (message (container r))) = true).
  { destruct (extractText (getContentType host) (message (container r)));
      [now elim Ht | reflexivity]. }
  rewrite Hn.
  destruct (safeSend_spec host (targetOf w rk)
              (textNotice (noticeAt host options (S (steps w)) (deleterOf rk revoker)
                                    (orEmpty (remoteJid rk)))
                          (extractText (getContentType host) (message (container r)))) w1)
    as (attempts & w' & Es & Hl' & _ & Hw).
  exists attempts, w'. rewrite Es, Hl', Hl. auto.
Qed.

(** C7: with the feature enabled, when the lookup of a revoked key returns
    a record (so it was archived and neither evicted nor expired) whose
    content has no media kind and a non-empty text, [handleRevoke] returns
    normally after exactly one wrapped send whose text is the header, two
    line feeds, and then the cached text unchanged, that text being the
    conversation body or the extended-text body of the cached envelope. *)
Theorem text_round_trip :
  forall (rk : MessageKey) (revoker : option string) (w : World) (r : Rec),
    enabled w = true ->
    truthy (remoteJid rk) = true ->
    fst (getByRevokedKey (dateNow host (steps w)) (Some rk) (cache w)) = Some r ->
    detectMediaKind (getContentType host) (message (container r)) = None ->
    extractText (getContentType host) (message (container r)) <> "" ->
    (exists attempts w',
       handleRevoke host options (Some rk) revoker w = (Returned tt, w')
       /\ log w' = (log w ++ attempts)%list
       /\ wrappedSend (targetOf w rk)
            (TextContent
               (noticeAt host options (S (steps w)) (deleterOf rk revoker)
                         (orEmpty (remoteJid rk))
                ++ String "010" (String "010"
                     (extractText (getContentType host) (message (container r))))))
            attempts)
    /\ (exists n,
          node (resolveContentNode (getContentType host) (message (container r))) = Some n
          /\ (extractText (getContentType host) (message (container r))
              = orEmpty (conversation n)
              \/ exists e, extendedTextMessage n = Some e
                           /\ extractText (getContentType host) (message (container r))
                              = orEmpty (text e))).
Proof.
  intros rk revoker w r He Hc Hh Hk Ht. split.
  - now apply handleRevoke_text_hit.
  - now apply text_only_source.
Qed.

(** Archiving a text message and revoking it right away, within the TTL,
    sends back the text of the observed message. *)
Lemma upsert_then_revoke m rk revoker w :
  enabled w = true ->
  key m = Some rk ->
  truthy (remoteJid rk) = true ->
  revokeTarget (message m) = None ->
  detectMediaKind (getContentType host) (message m) = None ->
  extractText (getContentType host) (message m) <> "" ->
  dateNow host (S (steps w)) - dateNow host (steps w) <= ttlMs (cache w) ->
  exists w1 attempts w2,
    onUpsert host options [m] w = (Returned tt, w1)
    /\ handleRevoke host options (Some rk) revoker w1 = (Returned tt, w2)
    /\ log w2 = (log w ++ attempts)%list
    /\ wrappedSend (targetOf w rk)
         (TextContent
            (noticeAt host options (S (S (steps w))) (deleterOf rk revoker)
                      (orEmpty (remoteJid rk))
             ++ String "010" (String "010" (extractText (getContentType host) (message m)))))
         attempts.
Proof.
  intros He Hk Hc Hr Hd Ht Hl.
  assert (Hp : present (message m) = true).
  { destruct (message m); [reflexivity|]. cbn in Ht. now elim Ht. }
  set (w1 := withCache (add (dateNow host (steps w)) (key m) m
                            (orElse (optField participant (key m))
                                    (optField remoteJid (key m)))
                            (cache w)) (tick w)).
  destruct (handleRevoke_text_hit rk revoker w1
              (added (dateNow host (steps w)) m
                     (orElse (optField participant (key m)) (optField remoteJid (key m)))
                     (cache w)))
    as (attempts & w2 & E & Hlog & Hw); try assumption.
  - subst w1. cbn [withCache tick cache steps]. rewrite <- Hk.
    now rewrite lookup_after_add.
  - exists w1, attempts, w2.
    cbn [onUpsert]. unfold bind. rewrite upsertOne_archives by assumption.
    fold w1. cbn [ret]. repeat split; assumption.
Qed.

End Archiving.

(* ------------------------------------------------------------------ *)
(** ** Maps of records: insertion and deletion *)

Lemma filter_keeps_all {A} (f : A -> bool) l :
  (forall x, In x l -> f x = true) -> filter f l = l.
Proof.
  induction l as [|x l IH]; cbn; intros H; [reflexivity|].
  rewrite (H x (or_introl eq_refl)). f_equal. apply IH. intros y I. apply H. now right.
Qed.

Lemma set_fresh {V} k (v : V) m :
  ~ In k (JSMap.keys m) -> JSMap.set k v m = (m ++ [(k, v)])%list.
Proof.
  induction m as [|[k' v'] m IH]; cbn; intros N; [reflexivity|].
  destruct (String.eqb k k') eqn:E.
  - apply String.eqb_eq in E. subst. elim N. now left.
  - rewrite IH; [reflexivity|]. intros I. apply N. now right.
Qed.

Lemma set_length {V} k (v : V) m :
  (length m <= length (JSMap.set k v m) <= S (length m))%nat.
Proof.
  induction m as [|[k' v'] m IH]; cbn; [lia|].
  destruct (String.eqb k k'); cbn; lia.
Qed.

Lemma set_values_incl {V} k (v : V) m :
  incl (JSMap.values (JSMap.set k v m)) (v :: JSMap.values m).
Proof.
  induction m as [|[k' v'] m IH]; cbn; [apply incl_refl|].
  destruct (String.eqb k k'); cbn.
  - intros x [<-|I]; [now left | right; now right].
  - intros x [<-|I]; [right; now left|].
    destruct (IH x I) as [<-|I']; [now left | right; now right].
Qed.

Lemma set_values_new {V} k (v : V) m : In v (JSMap.values (JSMap.set k v m)).
Proof.
  induction m as [|[k' v'] m IH]; cbn; [now left|].
  destruct (String.eqb k k'); cbn; [now left | now right].
Qed.

Lemma set_keys_incl {V} k (v : V) m :
  incl (JSMap.keys (JSMap.set k v m)) (k :: JSMap.keys m).
Proof.
  induction m as [|[k' v'] m IH]; cbn; [apply incl_refl|].
  destruct (String.eqb k k') eqn:E; cbn.
  - intros x [<-|I]; [now left | right; now right].
  - intros x [<-|I]; [right; now left|].
    destruct (IH x I) as [<-|I']; [now left | right; now right].
Qed.

Lemma set_keys_nodup {V} k (v : V) m :
  NoDup (JSMap.keys m) -> NoDup (JSMap.keys (JSMap.set k v m)).
Proof.
  induction m as [|[k' v'] m IH]; cbn; intros N.
  - constructor; [intros [] | constructor].
  - inversion N as [|? ? Hn Hm]; subst.
    destruct (String.eqb k k') eqn:E; cbn.
    + apply String.eqb_eq in E. subst. now constructor.
    + constructor; [|now apply IH].
      intros I. destruct (set_keys_incl k v m k' I) as [->|I']; [|now apply Hn].
      now rewrite String.eqb_refl in E.
Qed.

Lemma set_rids_nodup k v m :
  NoDup (rids m) -> ~ In (rid v) (rids m) -> NoDup (rids (JSMap.set k v m)).
Proof.
  unfold rids.
  induction m as [|[k' v'] m IH]; cbn; intros N F.
  - constructor; [intros [] | constructor].
  - inversion N as [|? ? Hn Hm]; subst.
    destruct (String.eqb k k'); cbn.
    + constructor; [|assumption]. intros I. apply F. now right.
    + constructor.
      * intros I. apply in_map_iff in I. destruct I as (x & Ex & Ix).
        destruct (set_values_incl k v m x Ix) as [<-|I'].
        -- apply F. left. now symmetry.
        -- apply Hn. rewrite <- Ex. now apply in_map.
      * apply IH; [assumption|]. intros I. apply F. now right.
Qed.

Lemma deleteWhere_values p (m : JSMap.t Rec) r :
  In r (JSMap.values (JSMap.deleteWhere p m)) <-> In r (JSMap.values m) /\ p r = false.
Proof.
  unfold JSMap.values, JSMap.deleteWhere. rewrite !in_map_iff. split.
  - intros ([k x] & E & I). cbn in E. subst x.
    apply filter_In in I. destruct I as [I Hp]. cbn in Hp.
    split; [exists (k, r); auto | now apply negb_true_iff].
  - intros [([k x] & E & I) Hp]. cbn in E. subst x.
    exists (k, r). split; [reflexivity|]. apply filter_In. split; [assumption|].
    cbn. now rewrite Hp.
Qed.

Lemma deleteWhere_length {V} p (m : JSMap.t V) :
  (length (JSMap.deleteWhere p m) <= length m)%nat.
Proof. apply filter_length_le. Qed.

Lemma deleteWhere_keys_incl {V} p (m : JSMap.t V) :
  incl (JSMap.keys (JSMap.deleteWhere p m)) (JSMap.keys m).
Proof.
  intros k I. unfold JSMap.keys, JSMap.deleteWhere in *.
  apply in_map_iff in I. destruct I as (e & E & I). apply filter_In in I.
  apply in_map_iff. exists e. tauto.
Qed.

Lemma deleteWhere_rids_nodup p m :
  NoDup (rids m) -> NoDup (rids (JSMap.deleteWhere p m)).
Proof.
  unfold rids.
  induction m as [|[k v] m IH]; cbn; intros N; [constructor|].
  inversion N as [|? ? Hn Hm]; subst.
  destruct (p v); cbn; [now apply IH|].
  constructor; [|now apply IH].
  intros I. apply Hn. apply in_map_iff in I. destruct I as (x & E & I).
  apply deleteWhere_values in I. rewrite <- E. apply in_map. tauto.
Qed.

(** Dropping a record that is indexed once removes exactly one entry. *)
Lemma deleteWhere_one v m :
  NoDup (rids m) -> In v (JSMap.values m) ->
  S (length (JSMap.deleteWhere (sameRec v) m)) = length m.
Proof.
  unfold rids.
  induction m as [|[k x] m IH]; cbn; intros N I; [elim I|].
  inversion N as [|? ? Hn Hm]; subst.
  destruct I as [->|I].
  - unfold sameRec at 1. rewrite Nat.eqb_refl. cbn. f_equal.
    unfold JSMap.deleteWhere. f_equal. apply filter_keeps_all.
    intros [k' x] Ix. cbn. unfold sameRec. apply negb_true_iff, Nat.eqb_neq.
    intros E. apply Hn. rewrite <- E. apply in_map. apply in_map_iff.
    exists (k', x). auto.
  - assert (Hx : sameRec v x = false).
    { unfold sameRec. apply Nat.eqb_neq. intros E. apply Hn. rewrite E.
      now apply in_map. }
    rewrite Hx. cbn. f_equal. now apply IH.
Qed.

(* ------------------------------------------------------------------ *)
(** ** The sort of [evictOldest] *)

Lemma insertByAt_perm e l : Permutation (insertByAt e l) (e :: l).
Proof.
  induction l as [|e' l IH]; cbn; [apply Permutation_refl|].
  destruct (at_ (snd e) <=? at_ (snd e')); [apply Permutation_refl|].
  eapply Permutation_trans; [apply perm_skip, IH | apply perm_swap].
Qed.

Lemma sortByAt_perm l : Permutation (sortByAt l) l.
Proof.
  induction l as [|e l IH]; cbn; [constructor|].
  eapply Permutation_trans; [apply insertByAt_perm | now apply perm_skip].
Qed.

Lemma insertByAt_sorted e l :
  StronglySorted olderOrSame l -> StronglySorted olderOrSame (insertByAt e l).
Proof.
  induction l as [|e' l IH]; cbn; intros S.
  - constructor; constructor.
  - apply StronglySorted_inv in S. destruct S as [S F].
    destruct (at_ (snd e) <=? at_ (snd e')) eqn:E.
    + apply Z.leb_le in E. constructor; [now constructor|].
      constructor; [exact E|].
      eapply Forall_impl; [|exact F]. unfold olderOrSame. intros x Hx. lia.
    + apply Z.leb_gt in E. constructor; [now apply IH|].
      apply Forall_forall. intros x Ix.
      apply (Permutation_in _ (insertByAt_perm e l)) in Ix.
      destruct Ix as [<-|Ix]; [unfold olderOrSame; lia|].
      revert x Ix. now apply Forall_forall.
Qed.

Lemma sortByAt_sorted l : StronglySorted olderOrSame (sortByAt l).
Proof.
  induction l as [|e l IH]; cbn; [constructor | now apply insertByAt_sorted].
Qed.

(** A prefix of a sorted list is no younger than the rest. *)
Lemma sorted_prefix_older l :
  StronglySorted olderOrSame l ->
  forall n x y, In x (firstn n l) -> In y (skipn n l) -> olderOrSame x y.
Proof.
  induction 1 as [|e l S IH F]; intros n x y Ix Iy.
  - destruct n; elim Ix.
  - destruct n as [|n]; [elim Ix|]. cbn in Ix, Iy.
    destruct Ix as [<-|Ix].
    + apply (proj1 (Forall_forall _ _) F).
      rewrite <- (firstn_skipn n l). apply in_or_app. now right.
    + now apply (IH n).
Qed.

(* ------------------------------------------------------------------ *)
(** ** Eviction *)

Lemma holds_false x m :
  (forall r, In r (JSMap.values m) -> rid r <> x) -> holds x m = false.
Proof.
  intros H. unfold holds. destruct (existsb _ m) eqn:E; [|reflexivity].
  apply existsb_exists in E. destruct E as ([k r] & I & E). cbn in E.
  apply Nat.eqb_eq in E. elim (H r); [|exact E].
  apply in_map_iff. exists (k, r). auto.
Qed.

Lemma holds_true x m r :
  In r (JSMap.values m) -> rid r = x -> holds x m = true.
Proof.
  intros I E. unfold holds. apply existsb_exists.
  apply in_map_iff in I. destruct I as ([k r'] & E' & I). cbn in E'. subst r'.
  exists (k, r). split; [assumption|]. cbn. now apply Nat.eqb_eq.
Qed.

(** What a run of the eviction loop leaves in each index. *)
Lemma dropped_values vs c r :
  (In r (JSMap.values (strictMap (fold_left dropRec vs c)))
   <-> In r (JSMap.values (strictMap c)) /\ forall v, In v vs -> sameRec v r = false)
  /\ (In r (JSMap.values (looseMap (fold_left dropRec vs c)))
      <-> In r (JSMap.values (looseMap c)) /\ forall v, In v vs -> sameRec v r = false)
  /\ (In r (JSMap.values (idMap (fold_left dropRec vs c)))
      <-> In r (JSMap.values (idMap c)) /\ forall v, In v vs -> sameRec v r = false).
Proof.
  revert c. induction vs as [|v vs IH]; intros c; cbn [fold_left].
  - repeat split; try tauto; intros _ [].
  - destruct (IH (dropRec c v)) as (Hs & Hl & Hi). cbn [dropRec strictMap looseMap idMap] in *.
    rewrite Hs, Hl, Hi, !deleteWhere_values. clear.
    assert (G : forall A : Prop,
               ((A /\ sameRec v r = false) /\ (forall x, In x vs -> sameRec x r = false))
               <-> (A /\ forall x, In x (v :: vs) -> sameRec x r = false)).
    { intros A. split.
      - intros [[a b] d]. split; [assumption|]. intros x [<-|I]; auto.
      - intros [a d]. repeat split; [assumption | apply d; now left |].
        intros x I. apply d. now right. }
    split; [apply G | split; apply G].
Qed.

Lemma dropped_lengths vs c :
  (length (looseMap (fold_left dropRec vs c)) <= length (looseMap c))%nat
  /\ (length (idMap (fold_left dropRec vs c)) <= length (idMap c))%nat
  /\ (length (strictMap (fold_left dropRec vs c)) <= length (strictMap c))%nat.
Proof.
  revert c. induction vs as [|v vs IH]; intros c; cbn [fold_left]; [lia|].
  destruct (IH (dropRec c v)) as (Hl & Hi & Hs). cbn [dropRec strictMap looseMap idMap] in *.
  pose proof (deleteWhere_length (sameRec v) (looseMap c)).
  pose proof (deleteWhere_length (sameRec v) (idMap c)).
  pose proof (deleteWhere_length (sameRec v) (strictMap c)).
  lia.
Qed.

(** Dropping distinct records that [strictMap] holds shrinks it by their
    number. *)
Lemma dropped_strict_length vs c :
  NoDup (rids (strictMap c)) ->
  NoDup (map rid vs) ->
  incl vs (JSMap.values (strictMap c)) ->
  (length (strictMap (fold_left dropRec vs c)) + length vs = length (strictMap c))%nat.
Proof.
  revert c. induction vs as [|v vs IH]; intros c Nc Nv I; cbn [fold_left length]; [lia|].
  inversion Nv as [|? ? Hn Hv]; subst.
  rewrite Nat.add_succ_r, IH.
  - cbn [dropRec strictMap]. apply deleteWhere_one; [assumption|]. apply I. now left.
  - cbn [dropRec strictMap]. now apply deleteWhere_rids_nodup.
  - assumption.
  - intros x Ix. cbn [dropRec strictMap]. apply deleteWhere_values. split.
    + apply I. now right.
    + unfold sameRec. apply Nat.eqb_neq. intros E. apply Hn. rewrite <- E. now apply in_map.
Qed.

Section Victims.

Variable c : MessageCache.
Variable count : nat.
Hypothesis distinct : NoDup (rids (strictMap c)).

Lemma victims_incl : incl (victims count c) (JSMap.values (strictMap c)).
Proof.
  intros v I. unfold victims, JSMap.values in *.
  apply in_map_iff in I. destruct I as (e & E & I).
  apply in_map_iff. exists e. split; [assumption|].
  apply (Permutation_in _ (sortByAt_perm (strictMap c))).
  rewrite <- (firstn_skipn count (sortByAt (strictMap c))).
  apply in_or_app. now left.
Qed.

Lemma victims_nodup : NoDup (map rid (victims count c)).
Proof.
  assert (N : NoDup (rids (sortByAt (strictMap c)))).
  { eapply Permutation_NoDup; [|exact distinct]. unfold rids, JSMap.values.
    apply Permutation_map, Permutation_map, Permutation_sym, sortByAt_perm. }
  unfold rids, JSMap.values in N.
  rewrite <- (firstn_skipn count (sortByAt (strictMap c))), !map_app in N.
  apply NoDup_app_remove_r in N. exact N.
Qed.

Lemma victims_length :
  length (victims count c) = Nat.min count (length (strictMap c)).
Proof.
  unfold victims, JSMap.values. rewrite length_map, length_firstn.
  now rewrite (Permutation_length (sortByAt_perm (strictMap c))).
Qed.

(** No index holds a victim after the eviction. *)
Lemma victims_gone v r :
  In v (victims count c) -> cached r (evictOldest count c) -> rid r <> rid v.
Proof.
  intros Iv Hr E. unfold evictOldest, cached in Hr.
  destruct (dropped_values (victims count c) c r) as (Hs & Hl & Hi).
  assert (F : forall x, In x (victims count c) -> sameRec x r = false) by tauto.
  specialize (F v Iv). unfold sameRec in F. apply Nat.eqb_neq in F. now apply F.
Qed.

(** Every record that survives in [strictMap] is at least as young as
    every victim. *)
Lemma victims_oldest v r :
  In v (victims count c) ->
  In r (JSMap.values (strictMap (evictOldest count c))) ->
  at_ v <= at_ r.
Proof.
  intros Iv Ir.
  assert (Hne : forall x, In x (victims count c) -> rid r <> rid x).
  { intros x Ix. apply (victims_gone x r Ix). now left. }
  unfold evictOldest in Ir. apply (dropped_values (victims count c) c r) in Ir.
  destruct Ir as [Ir _].
  unfold victims, JSMap.values in Iv, Ir.
  apply in_map_iff in Iv. destruct Iv as (ev & Ev & Iv).
  apply in_map_iff in Ir. destruct Ir as (er & Er & Ir).
  apply (Permutation_in _ (Permutation_sym (sortByAt_perm (strictMap c)))) in Ir.
  rewrite <- (firstn_skipn count (sortByAt (strictMap c))) in Ir.
  apply in_app_or in Ir. destruct Ir as [Ir|Ir].
  - elim (Hne r); [|reflexivity]. unfold victims, JSMap.values.
    apply in_map_iff. exists er. auto.
  - rewrite <- Ev, <- Er.
    apply (sorted_prefix_older _ (sortByAt_sorted (strictMap c)) count); assumption.
Qed.

End Victims.

(* ------------------------------------------------------------------ *)
(** ** Sequences of inserts *)

Lemma Inv_new ttl : Inv [] (newCache ttl).
Proof.
  constructor; cbn; try apply incl_refl; try constructor. intros r [].
Qed.

Lemma Inv_dropped seen vs c : Inv seen c -> Inv seen (fold_left dropRec vs c).
Proof.
  revert c. induction vs as [|v vs IH]; intros c H; cbn [fold_left]; [assumption|].
  apply IH. destruct H as [K S L I Li Ii F].
  constructor; cbn [dropRec strictMap looseMap idMap nextRid].
  - eapply incl_tran; [apply deleteWhere_keys_incl | exact K].
  - now apply deleteWhere_rids_nodup.
  - now apply deleteWhere_rids_nodup.
  - now apply deleteWhere_rids_nodup.
  - intros r Hr. apply deleteWhere_values in Hr. apply deleteWhere_values.
    split; [apply Li|]; tauto.
  - intros r Hr. apply deleteWhere_values in Hr. apply deleteWhere_values.
    split; [apply Ii|]; tauto.
  - intros r Hr. apply deleteWhere_values in Hr. apply F. tauto.
Qed.

(** The loose and id-only indexes are never larger than the strict one. *)
Lemma Inv_sizes seen c :
  Inv seen c ->
  (length (looseMap c) <= length (strictMap c))%nat
  /\ (length (idMap c) <= length (strictMap c))%nat.
Proof.
  intros [K S L I Li Ii F].
  assert (G : forall m : JSMap.t Rec,
             NoDup (rids m) -> incl (JSMap.values m) (JSMap.values (strictMap c)) ->
             (length m <= length (strictMap c))%nat).
  { intros m N Im.
    replace (length m) with (length (rids m))
      by (unfold rids, JSMap.values; now rewrite !length_map).
    replace (length (strictMap c)) with (length (rids (strictMap c)))
      by (unfold rids, JSMap.values; now rewrite !length_map).
    apply NoDup_incl_length; [assumption|]. unfold rids. now apply incl_map. }
  split; now apply G.
Qed.

Lemma rid_fresh c (m : JSMap.t Rec) :
  (forall r, In r (JSMap.values (strictMap c)) -> (rid r < nextRid c)%nat) ->
  incl (JSMap.values m) (JSMap.values (strictMap c)) ->
  forall t cont a, ~ In (rid (mkRec (nextRid c) t cont a)) (rids m).
Proof.
  intros F I t cont a H. unfold rids in H. apply in_map_iff in H.
  destruct H as (r & E & Hr). cbn in E. specialize (F r (I r Hr)). lia.
Qed.

(** Installing a fresh record under a strict key not used before. *)
Lemma Inv_install seen c t k cont a :
  Inv seen c ->
  ~ In (strict (makeKeys k)) seen ->
  let rec := mkRec (nextRid c) t cont a in
  Inv (seen ++ [strict (makeKeys k)])
      {| ttlMs := ttlMs c;
         strictMap := JSMap.set (strict (makeKeys k)) rec (strictMap c);
         looseMap := JSMap.set (loose (makeKeys k)) rec (looseMap c);
         idMap := if nonEmpty (idOnly (makeKeys k))
                  then JSMap.set (idOnly (makeKeys k)) rec (idMap c)
                  else idMap c;
         nextRid := S (nextRid c) |}.
Proof.
  intros [K S L I Li Ii F] Hn rec.
  assert (Hs : JSMap.values (JSMap.set (strict (makeKeys k)) rec (strictMap c))
               = (JSMap.values (strictMap c) ++ [rec])%list).
  { rewrite set_fresh by (intros H; apply Hn, K, H).
    unfold JSMap.values. now rewrite map_app. }
  assert (Hin : forall m : JSMap.t Rec,
             incl (JSMap.values m) (JSMap.values (strictMap c)) ->
             forall k', incl (JSMap.values (JSMap.set k' rec m))
                             (JSMap.values (strictMap c) ++ [rec])).
  { intros m Im k' r Hr. apply in_or_app.
    destruct (set_values_incl k' rec m r Hr) as [<-|H]; [right; now left | left; now apply Im]. }
  constructor; cbn [strictMap looseMap idMap nextRid].
  - intros s Hs'. apply in_or_app.
    destruct (set_keys_incl _ _ _ _ Hs') as [<-|H]; [right; now left | left; now apply K].
  - apply set_rids_nodup; [assumption|]. apply rid_fresh; [assumption | apply incl_refl].
  - apply set_rids_nodup; [assumption|]. now apply rid_fresh.
  - destruct (nonEmpty (idOnly (makeKeys k))); [|assumption].
    apply set_rids_nodup; [assumption|]. now apply rid_fresh.
  - rewrite Hs. now apply Hin.
  - rewrite Hs. destruct (nonEmpty (idOnly (makeKeys k))).
    + now apply Hin.
    + intros r Hr. apply in_or_app. left. now apply Ii.
  - rewrite Hs. intros r Hr. apply in_app_or in Hr. destruct Hr as [Hr|[<-|[]]].
    + specialize (F r Hr). lia.
    + cbn. lia.
Qed.

Lemma add_unfold t k cont a c :
  add t k cont a c =
  let c1 := if MAX_CACHE * 3 <? totalSize c then evictOldest evictBatch c else c in
  {| ttlMs := ttlMs c1;
     strictMap := JSMap.set (strict (makeKeys k)) (mkRec (nextRid c1) t cont a) (strictMap c1);
     looseMap := JSMap.set (loose (makeKeys k)) (mkRec (nextRid c1) t cont a) (looseMap c1);
     idMap := if nonEmpty (idOnly (makeKeys k))
              then JSMap.set (idOnly (makeKeys k)) (mkRec (nextRid c1) t cont a) (idMap c1)
              else idMap c1;
     nextRid := S (nextRid c1) |}.
Proof. reflexivity. Qed.

Lemma Inv_add seen c op :
  Inv seen c -> ~ In (strictOf op) seen -> Inv (seen ++ [strictOf op]) (applyAdd c op).
Proof.
  intros H Hn. unfold applyAdd, strictOf in *. rewrite add_unfold. cbv zeta.
  apply Inv_install; [|assumption].
  destruct (MAX_CACHE * 3 <? totalSize c); [now apply Inv_dropped | assumption].
Qed.

Lemma replay_snoc ops op c : replay (ops ++ [op]) c = applyAdd (replay ops c) op.
Proof. unfold replay. now rewrite fold_left_app. Qed.

Lemma evictBatch_value : Z.of_nat evictBatch = 1500.
Proof. reflexivity. Qed.

(** Size of the cache after the three [Map.set] calls of [add]. *)
Lemma installed_size t k cont a c :
  totalSize
    {| ttlMs := ttlMs c;
       strictMap := JSMap.set (strict (makeKeys k)) (mkRec (nextRid c) t cont a) (strictMap c);
       looseMap := JSMap.set (loose (makeKeys k)) (mkRec (nextRid c) t cont a) (looseMap c);
       idMap := if nonEmpty (idOnly (makeKeys k))
                then JSMap.set (idOnly (makeKeys k)) (mkRec (nextRid c) t cont a) (idMap c)
                else idMap c;
       nextRid := S (nextRid c) |}
  <= totalSize c + 3.
Proof.
  unfold totalSize, JSMap.size. cbn [strictMap looseMap idMap].
  pose proof (set_length (strict (makeKeys k)) (mkRec (nextRid c) t cont a) (strictMap c)).
  pose proof (set_length (loose (makeKeys k)) (mkRec (nextRid c) t cont a) (looseMap c)).
  pose proof (set_length (idOnly (makeKeys k)) (mkRec (nextRid c) t cont a) (idMap c)).
  destruct (nonEmpty (idOnly (makeKeys k))); lia.
Qed.

(** Above the high-water mark the strict index alone holds more records
    than one batch, and the eviction removes a full batch. *)
Lemma evicted_size seen c :
  Inv seen c ->
  MAX_CACHE * 3 < totalSize c ->
  length (victims evictBatch c) = evictBatch
  /\ totalSize (evictOldest evictBatch c) <= totalSize c - 1500.
Proof.
  intros H Hover.
  destruct (Inv_sizes seen c H) as [Hl Hi].
  pose proof evictBatch_value as Hb.
  assert (Hs : (evictBatch <= length (strictMap c))%nat).
  { unfold totalSize, JSMap.size, MAX_CACHE in Hover. lia. }
  assert (Hv : length (victims evictBatch c) = evictBatch).
  { rewrite victims_length. lia. }
  split; [exact Hv|].
  unfold evictOldest.
  pose proof (dropped_strict_length (victims evictBatch c) c (inv_strict _ _ H)
                (victims_nodup c evictBatch (inv_strict _ _ H))
                (victims_incl c evictBatch)) as Hd.
  destruct (dropped_lengths (victims evictBatch c) c) as (Dl & Di & _).
  unfold totalSize, JSMap.size. lia.
Qed.

Lemma withoutRecs_nil m : withoutRecs [] m = m.
Proof. unfold withoutRecs, JSMap.deleteWhere. now apply filter_keeps_all. Qed.

Lemma withoutRecs_cons v vs m :
  withoutRecs vs (JSMap.deleteWhere (sameRec v) m) = withoutRecs (v :: vs) m.
Proof.
  unfold withoutRecs, JSMap.deleteWhere.
  induction m as [|[k r] m IH]; cbn; [reflexivity|].
  destruct (sameRec v r); cbn; [assumption|].
  destruct (existsb (fun v0 => sameRec v0 r) vs); cbn; [assumption | now f_equal].
Qed.

(** The indexes after a run of the eviction loop over the records [vs]. *)
Lemma dropped_maps vs c :
  strictMap (fold_left dropRec vs c) = withoutRecs vs (strictMap c)
  /\ looseMap (fold_left dropRec vs c) = withoutRecs vs (looseMap c)
  /\ idMap (fold_left dropRec vs c) = withoutRecs vs (idMap c).
Proof.
  revert c. induction vs as [|v vs IH]; intros c; cbn [fold_left].
  - now rewrite !withoutRecs_nil.
  - destruct (IH (dropRec c v)) as (-> & -> & ->). cbn [dropRec strictMap looseMap idMap].
    now rewrite !withoutRecs_cons.
Qed.

Lemma withoutRecs_keeps vs m e :
  In e m -> (forall v, In v vs -> rid v <> rid (snd e)) -> In e (withoutRecs vs m).
Proof.
  intros I H. unfold withoutRecs, JSMap.deleteWhere. apply filter_In. split; [assumption|].
  apply negb_true_iff. destruct (existsb _ vs) eqn:E; [|reflexivity].
  apply existsb_exists in E. destruct E as (v & Iv & Ev).
  unfold sameRec in Ev. apply Nat.eqb_eq in Ev. elim (H v Iv). now symmetry.
Qed.

Lemma replay_inv ttl ops :
  NoDup (map strictOf ops) ->
  Inv (map strictOf ops) (replay ops (newCache ttl))
  /\ totalSize (replay ops (newCache ttl)) <= MAX_CACHE * 3 + 3.
Proof.
  induction ops as [|op ops IH] using rev_ind; intros N.
  - split; [apply Inv_new | cbn; unfold MAX_CACHE; lia].
  - rewrite map_app in N. cbn [map] in N.
    assert (N1 : NoDup (map strictOf ops)) by (eapply NoDup_app_remove_r; exact N).
    assert (N2 : ~ In (strictOf op) (map strictOf ops)).
    { apply NoDup_remove_2 in N. now rewrite app_nil_r in N. }
    destruct (IH N1) as [HI HS].
    rewrite replay_snoc, map_app. cbn [map]. split; [now apply Inv_add|].
    unfold applyAdd. rewrite add_unfold. cbv zeta.
    destruct (MAX_CACHE * 3 <? totalSize (replay ops (newCache ttl))) eqn:E.
    + apply Z.ltb_lt in E.
      destruct (evicted_size _ _ HI E) as [_ Hev].
      pose proof (installed_size (op_now op) (op_key op) (op_container op) (op_author op)
                    (evictOldest evictBatch (replay ops (newCache ttl)))).
      lia.
    + apply Z.ltb_ge in E.
      pose proof (installed_size (op_now op) (op_key op) (op_container op) (op_author op)
                    (replay ops (newCache ttl))).
      lia.
Qed.

(** The sizes around an insert, and what the eviction of an insert that
    starts above the mark removes. *)
Lemma eviction_removes_batch :
  forall (ttl : Z) (ops : list AddOp) (op : AddOp),
    NoDup (map strictOf (ops ++ [op])) ->
    let c := replay ops (newCache ttl) in
    let c' := applyAdd c op in
    totalSize c' <= MAX_CACHE * 3 + 3
    /\ (MAX_CACHE * 3 < totalSize c ->
        strictMap c' =
          JSMap.set (strictOf op)
                    (mkRec (nextRid c) (op_now op) (op_container op) (op_author op))
                    (strictMap (evictOldest evictBatch c))
        /\ Z.of_nat (length (victims evictBatch c)) = 1500
        /\ (forall v, In v (victims evictBatch c) ->
                      In v (JSMap.values (strictMap c))
                      /\ reachable (rid v) (evictOldest evictBatch c) = false
                      /\ reachable (rid v) c' = false)
        /\ (forall v r, In v (victims evictBatch c) ->
                        cached r (evictOldest evictBatch c) -> at_ v <= at_ r)
        /\ totalSize c' <= totalSize c - 1500 + 3
        /\ totalSize c' < MAX_CACHE * 3).
Proof.
  intros ttl ops op N c c'.
  assert (N1 : NoDup (map strictOf ops)).
  { rewrite map_app in N. eapply NoDup_app_remove_r; exact N. }
  destruct (replay_inv ttl ops N1) as [HI HS]. fold c in HI, HS.
  split.
  { destruct (replay_inv ttl _ N) as [_ H]. now rewrite replay_snoc in H. }
  intros Hover.
  destruct (evicted_size _ _ HI Hover) as [Hlen Hev].
  assert (HI1 : Inv (map strictOf ops) (evictOldest evictBatch c)) by now apply Inv_dropped.
  assert (Ec' : c' = _) by (unfold c', applyAdd; apply add_unfold).
  cbv zeta in Ec'. apply Z.ltb_lt in Hover. rewrite Hover in Ec'. apply Z.ltb_lt in Hover.
  rewrite evictOldest_nextRid in Ec'.
  assert (Hgone : forall v r, In v (victims evictBatch c) ->
                              cached r (evictOldest evictBatch c) -> rid r <> rid v).
  { intros v r Iv Hr. now apply (victims_gone c evictBatch v r). }
  split; [rewrite Ec'; reflexivity|].
  split; [rewrite Hlen; apply evictBatch_value|].
  split; [|split].
  - intros v Iv.
    assert (Hv : In v (JSMap.values (strictMap c))) by now apply (victims_incl c evictBatch).
    split; [exact Hv|]. split.
    + unfold reachable.
      rewrite !holds_false; [reflexivity | | |];
        intros r Hr; apply (Hgone v r Iv); unfold cached; auto.
    + pose proof (inv_fresh _ _ HI v Hv) as Hf.
      assert (G : forall (k : string) (m : JSMap.t Rec),
                 (forall r, In r (JSMap.values m) -> rid r <> rid v) ->
                 holds (rid v)
                       (JSMap.set k (mkRec (nextRid c) (op_now op) (op_container op)
                                           (op_author op)) m) = false).
      { intros k m Hm. apply holds_false. intros r Hr.
        destruct (set_values_incl _ _ _ _ Hr) as [<-|H]; [cbn; lia | now apply Hm]. }
      rewrite Ec'. unfold reachable. cbn [strictMap looseMap idMap].
      rewrite !G; try (intros r Hr; apply (Hgone v r Iv); unfold cached; auto).
      destruct (nonEmpty (idOnly (makeKeys (op_key op)))).
      * rewrite G; [reflexivity|]. intros r Hr. apply (Hgone v r Iv). unfold cached. auto.
      * rewrite holds_false; [reflexivity|].
        intros r Hr. apply (Hgone v r Iv). unfold cached. auto.
  - intros v r Iv Hr. apply (victims_oldest c evictBatch v r Iv).
    destruct Hr as [Hr|[Hr|Hr]]; [exact Hr | |].
    + now apply (inv_loose_in _ _ HI1).
    + now apply (inv_id_in _ _ HI1).
  - rewrite Ec'.
    pose proof (installed_size (op_now op) (op_key op) (op_container op) (op_author op)
                  (evictOldest evictBatch c)) as Hs.
    rewrite evictOldest_ttlMs, evictOldest_nextRid in Hs.
    rewrite evictOldest_ttlMs. unfold MAX_CACHE in *. lia.
Qed.

(** What the eviction of an insert that starts above the mark keeps, and
    what an insert at or below the mark leaves in place. *)
Lemma eviction_keeps_rest :
  forall (ttl : Z) (ops : list AddOp) (op : AddOp),
    NoDup (map strictOf (ops ++ [op])) ->
    let c := replay ops (newCache ttl) in
    let c' := applyAdd c op in
    let vs := victims evictBatch c in
    let new := mkRec (nextRid c) (op_now op) (op_container op) (op_author op) in
    (MAX_CACHE * 3 < totalSize c ->
     NoDup (map rid vs)
     /\ strictMap c' = (withoutRecs vs (strictMap c) ++ [(strictOf op, new)])%list
     /\ looseMap c' = JSMap.set (loose (makeKeys (op_key op))) new (withoutRecs vs (looseMap c))
     /\ idMap c' = (if nonEmpty (idOnly (makeKeys (op_key op)))
                    then JSMap.set (idOnly (makeKeys (op_key op))) new
                                   (withoutRecs vs (idMap c))
                    else withoutRecs vs (idMap c))
     /\ Z.of_nat (length (strictMap c')) = Z.of_nat (length (strictMap c)) - 1500 + 1
     /\ (forall k r, In (k, r) (strictMap c) ->
                     (forall v, In v vs -> rid v <> rid r) -> In (k, r) (strictMap c'))
     /\ (forall v r, In v vs -> In r (JSMap.values (strictMap c)) ->
                     (forall v', In v' vs -> rid v' <> rid r) -> at_ v <= at_ r))
    /\ (totalSize c <= MAX_CACHE * 3 ->
        strictMap c' = (strictMap c ++ [(strictOf op, new)])%list
        /\ looseMap c' = JSMap.set (loose (makeKeys (op_key op))) new (looseMap c)
        /\ idMap c' = (if nonEmpty (idOnly (makeKeys (op_key op)))
                       then JSMap.set (idOnly (makeKeys (op_key op))) new (idMap c)
                       else idMap c)).
Proof.
  intros ttl ops op N c c' vs new.
  assert (N1 : NoDup (map strictOf ops)).
  { rewrite map_app in N. eapply NoDup_app_remove_r; exact N. }
  assert (N2 : ~ In (strictOf op) (map strictOf ops)).
  { rewrite map_app in N. cbn [map] in N. apply NoDup_remove_2 in N.
    now rewrite app_nil_r in N. }
  destruct (replay_inv ttl ops N1) as [HI _]. fold c in HI.
  assert (Ec' : c' = _) by (unfold c', applyAdd; apply add_unfold).
  cbv zeta in Ec'. split.
  - intros Hover.
    destruct (evicted_size _ _ HI Hover) as [Hlen _]. fold vs in Hlen.
    apply Z.ltb_lt in Hover. rewrite Hover in Ec'. apply Z.ltb_lt in Hover.
    rewrite evictOldest_nextRid in Ec'. fold new in Ec'.
    destruct (dropped_maps vs c) as (Ds & Dl & Di).
    unfold evictOldest in Ec'. fold vs in Ec'. rewrite Ds, Dl, Di in Ec'.
    assert (K : ~ In (strict (makeKeys (op_key op))) (JSMap.keys (withoutRecs vs (strictMap c)))).
    { intros I. apply N2. apply (inv_keys _ _ HI).
      unfold withoutRecs in I. now apply deleteWhere_keys_incl in I. }
    assert (Es : strictMap c' = (withoutRecs vs (strictMap c) ++ [(strictOf op, new)])%list).
    { rewrite Ec'. cbn [strictMap]. now apply set_fresh. }
    split; [apply victims_nodup; apply (inv_strict _ _ HI)|].
    split; [exact Es|].
    split; [rewrite Ec'; reflexivity|].
    split; [rewrite Ec'; reflexivity|].
    split; [|split].
    + rewrite Es, length_app. cbn [length].
      pose proof (dropped_strict_length vs c (inv_strict _ _ HI)
                    (victims_nodup c evictBatch (inv_strict _ _ HI))
                    (victims_incl c evictBatch)) as Hd.
      rewrite Ds in Hd. pose proof evictBatch_value. lia.
    + intros k r I Hr. rewrite Es. apply in_or_app. left.
      now apply withoutRecs_keeps.
    + intros v r Iv Ir Hr. apply (victims_oldest c evictBatch v r Iv).
      unfold evictOldest. fold vs. rewrite Ds. unfold JSMap.values in *.
      apply in_map_iff in Ir. destruct Ir as ([k x] & E & I). cbn in E. subst x.
      apply in_map_iff. exists (k, r). split; [reflexivity|]. now apply withoutRecs_keeps.
  - intros Hs. apply Z.ltb_ge in Hs. rewrite Hs in Ec'. fold new in Ec'.
    split; [|split]; rewrite Ec'; cbn [strictMap looseMap idMap]; try reflexivity.
    apply set_fresh. intros I. apply N2. now apply (inv_keys _ _ HI).
Qed.

(** C3: in a cache filled by inserts of distinct records (pairwise distinct
    strict keys), the total entry count never exceeds the high-water mark by
    more than the three entries of one insert.  An insert that starts above
    the mark first evicts a batch of exactly ceil(0.3 * 5000) = 1500
    distinct records of [strictMap], each of them at least as old as every
    record of [strictMap] that is not in the batch: every index entry that
    holds one of the 1500 is removed, every other entry of the three indexes
    stays as it was, the new record is then installed, [strictMap] ends with
    1499 entries fewer than before, and the total ends under the mark.  An
    insert that starts at or below the mark evicts nothing. *)
Theorem capacity_eviction :
  forall (ttl : Z) (ops : list AddOp) (op : AddOp),
    NoDup (map strictOf (ops ++ [op])) ->
    let c := replay ops (newCache ttl) in
    let c' := applyAdd c op in
    let vs := victims evictBatch c in
    let new := mkRec (nextRid c) (op_now op) (op_container op) (op_author op) in
    totalSize c' <= MAX_CACHE * 3 + 3
    /\ (MAX_CACHE * 3 < totalSize c ->
        strictMap c' =
          JSMap.set (strictOf op)
                    (mkRec (nextRid c) (op_now op) (op_container op) (op_author op))
                    (strictMap (evictOldest evictBatch c))
        /\ Z.of_nat (length (victims evictBatch c)) = 1500
        /\ (forall v, In v (victims evictBatch c) ->
                      In v (JSMap.values (strictMap c))
                      /\ reachable (rid v) (evictOldest evictBatch c) = false
                      /\ reachable (rid v) c' = false)
        /\ (forall v r, In v (victims evictBatch c) ->
                        cached r (evictOldest evictBatch c) -> at_ v <= at_ r)
        /\ totalSize c' <= totalSize c - 1500 + 3
        /\ totalSize c' < MAX_CACHE * 3
        /\ NoDup (map rid vs)
        /\ strictMap c' = (withoutRecs vs (strictMap c) ++ [(strictOf op, new)])%list
        /\ looseMap c'
           = JSMap.set (loose (makeKeys (op_key op))) new (withoutRecs vs (looseMap c))
        /\ idMap c' = (if nonEmpty (idOnly (makeKeys (op_key op)))
                       then JSMap.set (idOnly (makeKeys (op_key op))) new
                                      (withoutRecs vs (idMap c))
                       else withoutRecs vs (idMap c))
        /\ Z.of_nat (length (strictMap c')) = Z.of_nat (length (strictMap c)) - 1500 + 1
        /\ (forall k r, In (k, r) (strictMap c) ->
                        (forall v, In v vs -> rid v <> rid r) -> In (k, r) (strictMap c'))
        /\ (forall v r, In v vs -> In r (JSMap.values (strictMap c)) ->
                        (forall v', In v' vs -> rid v' <> rid r) -> at_ v <= at_ r))
    /\ (totalSize c <= MAX_CACHE * 3 ->
        strictMap c' = (strictMap c ++ [(strictOf op, new)])%list
        /\ looseMap c' = JSMap.set (loose (makeKeys (op_key op))) new (looseMap c)
        /\ idMap c' = (if nonEmpty (idOnly (makeKeys (op_key op)))
                       then JSMap.set (idOnly (makeKeys (op_key op))) new (idMap c)
                       else idMap c)).
Proof.
  intros ttl ops op N c c' vs new.
  destruct (eviction_removes_batch ttl ops op N) as [Hbound Hgone].
  destruct (eviction_keeps_rest ttl ops op N) as [Hkeep Hbelow].
  split; [exact Hbound|]. split; [|exact Hbelow].
  intros Hover.
  destruct (Hgone Hover) as (A & B & C & D & E & F).
  destruct (Hkeep Hover) as (G & H & I & J & K & L & M).
  repeat (split; [assumption|]). exact M.
Qed.

(* ------------------------------------------------------------------ *)
(** ** A cache filled past the high-water mark *)

Lemma serial_inj p q : serial p = serial q -> p = q.
Proof.
  revert q. induction p as [p IH|p IH|]; intros [q|q|]; cbn; intros H;
    try discriminate H; try reflexivity;
    try (injection H as H; f_equal; now apply IH);
    try (injection H as H; destruct p; discriminate H);
    try (injection H as H; destruct q; discriminate H).
Qed.

Lemma length_append (a b : string) :
  String.length (a ++ b) = (String.length a + String.length b)%nat.
Proof. induction a as [|ch a IH]; cbn; [reflexivity | now rewrite IH]. Qed.

Lemma append_cancel_r (a b s : string) : a ++ s = b ++ s -> a = b.
Proof.
  revert b. induction a as [|ch a IH]; intros [|ch' b] H; cbn in H.
  - reflexivity.
  - apply (f_equal String.length) in H. cbn in H. rewrite length_append in H. lia.
  - apply (f_equal String.length) in H. cbn in H. rewrite length_append in H. lia.
  - injection H as -> H. f_equal. now apply IH.
Qed.

Lemma demo_id_inj i j :
  idOnly (makeKeys (demoKey i)) = idOnly (makeKeys (demoKey j)) -> i = j.
Proof. cbn. intros H. now apply SuccNat2Pos.inj, serial_inj. Qed.

Lemma demo_loose_inj i j :
  loose (makeKeys (demoKey i)) = loose (makeKeys (demoKey j)) -> i = j.
Proof. cbn. intros H. injection H as H. now apply SuccNat2Pos.inj, serial_inj. Qed.

Lemma demo_strict_inj i j :
  strict (makeKeys (demoKey i)) = strict (makeKeys (demoKey j)) -> i = j.
Proof.
  cbn. intros H. injection H as H.
  now apply SuccNat2Pos.inj, serial_inj, (append_cancel_r _ _ "|").
Qed.

Lemma demo_fresh (f : nat -> string) (g : nat -> Rec) n :
  (forall i j, f i = f j -> i = j) ->
  ~ In (f n) (JSMap.keys (map (fun i => (f i, g i)) (seq 0 n))).
Proof.
  intros Hf H. unfold JSMap.keys in H. rewrite map_map in H. cbn in H.
  apply in_map_iff in H. destruct H as (i & E & I).
  apply Hf in E. apply in_seq in I. lia.
Qed.

Lemma demoCache_size n : totalSize (demoCache n) = 3 * Z.of_nat n.
Proof.
  unfold totalSize, JSMap.size, demoCache. cbn [strictMap looseMap idMap].
  rewrite !length_map, length_seq. lia.
Qed.

Lemma demo_replay n :
  Z.of_nat n <= 5001 ->
  replay (demoOps n) (newCache DEFAULT_TTL_MS) = demoCache n.
Proof.
  induction n as [|n IH]; intros Hn; [reflexivity|].
  unfold demoOps. rewrite seq_S, map_app. cbn [map Nat.add].
  rewrite replay_snoc. fold (demoOps n). rewrite IH by lia.
  unfold applyAdd. rewrite add_unfold. cbv zeta.
  assert (E : (MAX_CACHE * 3 <? totalSize (demoCache n)) = false).
  { apply Z.ltb_ge. rewrite demoCache_size. unfold MAX_CACHE. lia. }
  rewrite E.
  assert (Hid : nonEmpty (idOnly (makeKeys (op_key (demoOp n)))) = true).
  { cbn. destruct (Pos.of_succ_nat n); reflexivity. }
  rewrite Hid. cbn [op_key op_now op_container op_author demoOp].
  unfold demoCache at 1 2 3 4 5. cbn [ttlMs strictMap looseMap idMap nextRid].
  rewrite !set_fresh.
  - unfold demoCache. rewrite seq_S, !map_app. reflexivity.
  - apply (demo_fresh (fun i => idOnly (makeKeys (demoKey i)))), demo_id_inj.
  - apply (demo_fresh (fun i => loose (makeKeys (demoKey i)))), demo_loose_inj.
  - apply (demo_fresh (fun i => strict (makeKeys (demoKey i)))), demo_strict_inj.
Qed.

Lemma demoCount_value : Z.of_nat demoCount = 5001.
Proof. reflexivity. Qed.

Lemma demo_distinct n : NoDup (map strictOf (demoOps n)).
Proof.
  unfold demoOps. rewrite map_map.
  induction n as [|n IH]; [constructor|].
  rewrite seq_S, map_app. cbn [map Nat.add].
  apply NoDup_app; [exact IH | constructor; [intros [] | constructor] |].
  intros s Hs [<-|[]]. apply in_map_iff in Hs. destruct Hs as (i & E & I).
  apply demo_strict_inj in E. apply in_seq in I. lia.
Qed.

Lemma get_in {V} k (v : V) m : JSMap.get k m = Some v -> In (k, v) m.
Proof.
  induction m as [|[k' v'] m IH]; cbn; [discriminate|].
  destruct (String.eqb k k') eqn:E.
  - apply String.eqb_eq in E. subst. intros [= ->]. now left.
  - intros H. right. now apply IH.
Qed.

Lemma get_indexed (f : nat -> string) (g : nat -> Rec) s n i :
  (forall a b, f a = f b -> a = b) ->
  In i (seq s n) ->
  JSMap.get (f i) (map (fun j => (f j, g j)) (seq s n)) = Some (g i).
Proof.
  intros Hf. revert s. induction n as [|n IH]; intros s I; [elim I|].
  cbn [seq map JSMap.get]. destruct (String.eqb (f i) (f s)) eqn:E.
  - apply String.eqb_eq, Hf in E. now subst.
  - destruct I as [->|I]; [now rewrite String.eqb_refl in E | now apply IH].
Qed.

Lemma dropped_strict_entries vs c e :
  In e (strictMap (fold_left dropRec vs c)) ->
  In e (strictMap c) /\ forall v, In v vs -> sameRec v (snd e) = false.
Proof.
  revert c. induction vs as [|v vs IH]; intros c H; cbn [fold_left] in H.
  - split; [assumption | intros _ []].
  - apply IH in H. destruct H as [H F]. cbn [dropRec strictMap] in H.
    apply filter_In in H. destruct H as [H Hv]. split; [assumption|].
    intros x [<-|I]; [now apply negb_true_iff | now apply F].
Qed.

(** Records inserted at increasing times are already in eviction order. *)
Lemma sortByAt_indexed (f : nat -> string) s n :
  sortByAt (map (fun i => (f i, demoRec i)) (seq s n))
  = map (fun i => (f i, demoRec i)) (seq s n).
Proof.
  revert s. induction n as [|n IH]; intros s; [reflexivity|].
  cbn [seq map sortByAt]. rewrite IH.
  destruct n as [|n]; [reflexivity|].
  cbn [seq map insertByAt snd at_ demoRec].
  assert (E : (Z.of_nat s <=? Z.of_nat (S s)) = true) by (apply Z.leb_le; lia).
  now rewrite E.
Qed.

(** The oldest record of the filled cache is among the victims. *)
Lemma demo_oldest_is_victim n :
  In (demoRec 0) (victims evictBatch (demoCache (S n))).
Proof.
  unfold victims, demoCache. cbn [strictMap].
  rewrite sortByAt_indexed.
  assert (E : exists b, evictBatch = S b).
  { destruct evictBatch eqn:E; [|eauto]. pose proof evictBatch_value as H.
    rewrite E in H. discriminate H. }
  destruct E as [b ->]. cbn [seq map firstn JSMap.values snd]. now left.
Qed.

Lemma demo_over_mark :
  MAX_CACHE * 3 < totalSize (replay (demoOps demoCount) (newCache DEFAULT_TTL_MS)).
Proof.
  rewrite demo_replay by (rewrite demoCount_value; lia).
  rewrite demoCache_size, demoCount_value. unfold MAX_CACHE. lia.
Qed.

(** C5 (as stated, refuted): in the cache filled by 5001 inserts of distinct
    records, inserting a second record under the strict key of the newest
    one starts above the high-water mark and therefore evicts; the record
    stored under another strict key, that of the oldest insert, is no longer
    reachable afterwards. *)
Lemma reinsert_above_mark_evicts_other_keys :
  let c := replay (demoOps demoCount) (newCache DEFAULT_TTL_MS) in
  let c' := add 5001 (demoKey demoLast) (demoMessage demoLast) None c in
  JSMap.get (strict (makeKeys (demoKey demoLast))) (strictMap c) = Some (demoRec demoLast)
  /\ strict (makeKeys (demoKey 0)) <> strict (makeKeys (demoKey demoLast))
  /\ JSMap.get (strict (makeKeys (demoKey 0))) (strictMap c) = Some (demoRec 0)
  /\ JSMap.get (strict (makeKeys (demoKey 0))) (strictMap c') = None.
Proof.
  cbv zeta.
  pose proof demo_over_mark as Hover.
  assert (Ec : replay (demoOps demoCount) (newCache DEFAULT_TTL_MS) = demoCache demoCount).
  { apply demo_replay. rewrite demoCount_value. lia. }
  revert Hover Ec. generalize (replay (demoOps demoCount) (newCache DEFAULT_TTL_MS)).
  intros c Hover Ec.
  assert (Hlast : In demoLast (seq 0 demoCount)).
  { apply in_seq. unfold demoCount. lia. }
  assert (Hfirst : In O (seq 0 demoCount)).
  { apply in_seq. unfold demoCount. lia. }
  assert (Hne : strict (makeKeys (demoKey 0)) <> strict (makeKeys (demoKey demoLast))).
  { intros E. apply demo_strict_inj in E. discriminate E. }
  split; [|split; [exact Hne | split]].
  - rewrite Ec. unfold demoCache. cbn [strictMap].
    apply (get_indexed (fun i => strict (makeKeys (demoKey i))) demoRec);
      [apply demo_strict_inj | exact Hlast].
  - rewrite Ec. unfold demoCache. cbn [strictMap].
    apply (get_indexed (fun i => strict (makeKeys (demoKey i))) demoRec);
      [apply demo_strict_inj | exact Hfirst].
  - rewrite add_unfold. cbv zeta.
    apply Z.ltb_lt in Hover. rewrite Hover. cbn [strictMap].
    rewrite get_set_other by exact Hne.
    destruct (JSMap.get (strict (makeKeys (demoKey 0)))
                        (strictMap (evictOldest evictBatch c))) as [r|] eqn:G;
      [|reflexivity].
    apply get_in, dropped_strict_entries in G. destruct G as [G F].
    rewrite Ec in G, F. unfold demoCache in G. cbn [strictMap] in G.
    apply in_map_iff in G. destruct G as (i & E & _).
    pose proof (f_equal fst E) as E1. pose proof (f_equal snd E) as E2.
    cbn [fst snd] in E1, E2. apply demo_strict_inj in E1. subst i r.
    specialize (F (demoRec 0) (demo_oldest_is_victim demoLast)).
    cbn in F. discriminate F.
Qed.

(* ------------------------------------------------------------------ *)
(** ** One record per strict key *)

Lemma get_absent {V} k (m : JSMap.t V) : ~ In k (JSMap.keys m) -> JSMap.get k m = None.
Proof.
  induction m as [|[k' v] m IH]; cbn; intros N; [reflexivity|].
  destruct (String.eqb k k') eqn:E.
  - apply String.eqb_eq in E. subst. elim N. now left.
  - apply IH. intros I. apply N. now right.
Qed.

(** Lookup in a map from which the entries satisfying [p] were deleted. *)
Lemma get_deleteWhere {V} (p : V -> bool) k (m : JSMap.t V) :
  NoDup (JSMap.keys m) ->
  JSMap.get k (JSMap.deleteWhere p m)
  = match JSMap.get k m with
    | Some v => if p v then None else Some v
    | None => None
    end.
Proof.
  induction m as [|[k' v] m IH]; cbn; intros N; [reflexivity|].
  inversion N as [|? ? Hn Hm]; subst.
  destruct (String.eqb k k') eqn:E.
  - apply String.eqb_eq in E. subst k'. destruct (p v); cbn.
    + apply get_absent. intros I. apply Hn. now apply (deleteWhere_keys_incl p m).
    + now rewrite String.eqb_refl.
  - destruct (p v); cbn; rewrite ?E; now apply IH.
Qed.

Lemma in_get {V} k (v : V) (m : JSMap.t V) :
  NoDup (JSMap.keys m) -> In (k, v) m -> JSMap.get k m = Some v.
Proof.
  induction m as [|[k' v'] m IH]; cbn; intros N I; [elim I|].
  inversion N as [|? ? Hn Hm]; subst.
  destruct I as [E|I].
  - injection E as -> ->. now rewrite String.eqb_refl.
  - destruct (String.eqb k k') eqn:E; [|now apply IH].
    apply String.eqb_eq in E. subst k'. elim Hn.
    apply in_map_iff. exists (k, v). auto.
Qed.

Lemma deleteWhere_keys_nodup {V} (p : V -> bool) (m : JSMap.t V) :
  NoDup (JSMap.keys m) -> NoDup (JSMap.keys (JSMap.deleteWhere p m)).
Proof.
  induction m as [|[k v] m IH]; cbn; intros N; [constructor|].
  inversion N as [|? ? Hn Hm]; subst.
  destruct (p v); cbn; [now apply IH|].
  constructor; [|now apply IH]. intros I. apply Hn.
  now apply (deleteWhere_keys_incl p m).
Qed.

(** C5 (amended): in every cache state whose strict keys are distinct (as
    in every [Map]), an insert leaves exactly one record under its strict
    key, the new one, whatever was stored there before and whether or not
    the insert evicts, and the strict keys stay distinct.  Every other
    strict key keeps the record it had, unless the insert started above the
    high-water mark and that record is among the evicted, in which case the
    key is left without a record; so an insert that does not start above the
    mark leaves the record under every other strict key as it was. *)
Theorem add_replaces_one_strict_key :
  forall (t : Z) (k : option MessageKey) (cont : WAMessage) (a : option string)
         (c : MessageCache),
    NoDup (JSMap.keys (strictMap c)) ->
    JSMap.get (strict (makeKeys k)) (strictMap (add t k cont a c))
    = Some (mkRec (nextRid c) t cont a)
    /\ NoDup (JSMap.keys (strictMap (add t k cont a c)))
    /\ (forall r, In (strict (makeKeys k), r) (strictMap (add t k cont a c)) ->
                  r = mkRec (nextRid c) t cont a)
    /\ (forall s, s <> strict (makeKeys k) ->
                  JSMap.get s (strictMap (add t k cont a c))
                  = match JSMap.get s (strictMap c) with
                    | Some r =>
                      if (MAX_CACHE * 3 <? totalSize c)
                         && existsb (fun v => sameRec v r) (victims evictBatch c)
                      then None
                      else Some r
                    | None => None
                    end)
    /\ (totalSize c <= MAX_CACHE * 3 ->
        forall s, s <> strict (makeKeys k) ->
                  JSMap.get s (strictMap (add t k cont a c)) = JSMap.get s (strictMap c)).
Proof.
  intros t k cont a c N.
  assert (Hget : JSMap.get (strict (makeKeys k)) (strictMap (add t k cont a c))
                 = Some (mkRec (nextRid c) t cont a)) by apply add_strict.
  assert (Hnd : NoDup (JSMap.keys (strictMap (add t k cont a c)))).
  { rewrite add_unfold. cbv zeta. cbn [strictMap]. apply set_keys_nodup.
    destruct (MAX_CACHE * 3 <? totalSize c); [|assumption].
    unfold evictOldest. destruct (dropped_maps (victims evictBatch c) c) as (-> & _).
    now apply deleteWhere_keys_nodup. }
  assert (Hother : forall s, s <> strict (makeKeys k) ->
                     JSMap.get s (strictMap (add t k cont a c))
                     = match JSMap.get s (strictMap c) with
                       | Some r =>
                         if (MAX_CACHE * 3 <? totalSize c)
                            && existsb (fun v => sameRec v r) (victims evictBatch c)
                         then None
                         else Some r
                       | None => None
                       end).
  { intros s Hs. rewrite add_unfold. cbv zeta. cbn [strictMap].
    rewrite get_set_other by exact Hs.
    destruct (MAX_CACHE * 3 <? totalSize c); cbn [andb].
    - unfold evictOldest. destruct (dropped_maps (victims evictBatch c) c) as (-> & _).
      unfold withoutRecs. now apply get_deleteWhere.
    - now destruct (JSMap.get s (strictMap c)). }
  split; [exact Hget|]. split; [exact Hnd|]. split; [|split; [exact Hother|]].
  - intros r I. apply (in_get _ _ _ Hnd) in I. congruence.
  - intros Hs s Hne. rewrite (Hother s Hne).
    assert (E : (MAX_CACHE * 3 <? totalSize c) = false) by (now apply Z.ltb_ge).
    rewrite E. now destruct (JSMap.get s (strictMap c)).
Qed.

(* ------------------------------------------------------------------ *)
(** ** Three-tier lookup *)

(** C4 (amended): a lookup answers with the first hit among the strict, the
    loose and the id-only index, in that order; for a record stored under
    identity [k] that has not expired and is still the record its loose key
    leads to (no later insert used the same chat and message id), a lookup
    whose identity [k'] shares chat and message id with [k] but has no
    strict-key entry returns that record, the one the strict-key lookup with
    [k] returns. *)
Theorem loose_key_fallback :
  forall (now : Z) (k k' : option MessageKey) (c : MessageCache) (r : Rec),
    JSMap.get (strict (makeKeys k)) (strictMap c) = Some r ->
    JSMap.get (loose (makeKeys k)) (looseMap c) = Some r ->
    now - at_ r <= ttlMs c ->
    loose (makeKeys k') = loose (makeKeys k) ->
    JSMap.get (strict (makeKeys k')) (strictMap c) = None ->
    getByRevokedKey now k' c = (Some r, c)
    /\ getByRevokedKey now k c = (Some r, c)
    /\ (forall q r',
          firstHit (makeKeys q) c = Some r' <->
          JSMap.get (strict (makeKeys q)) (strictMap c) = Some r'
          \/ (JSMap.get (strict (makeKeys q)) (strictMap c) = None
              /\ JSMap.get (loose (makeKeys q)) (looseMap c) = Some r')
          \/ (JSMap.get (strict (makeKeys q)) (strictMap c) = None
              /\ JSMap.get (loose (makeKeys q)) (looseMap c) = None
              /\ nonEmpty (idOnly (makeKeys q)) = true
              /\ JSMap.get (idOnly (makeKeys q)) (idMap c) = Some r')).
Proof.
  intros now k k' c r Hs Hl Ht Hk Hn. split; [|split].
  - apply fresh_hit; [|exact Ht]. unfold firstHit. now rewrite Hn, Hk, Hl.
  - apply fresh_hit; [|exact Ht]. unfold firstHit. now rewrite Hs.
  - intros q r'. unfold firstHit.
    destruct (JSMap.get (strict (makeKeys q)) (strictMap c)) as [x|].
    + split; [intros [= ->]; now left | intros [H|[[H _]|[H _]]]; congruence].
    + destruct (JSMap.get (loose (makeKeys q)) (looseMap c)) as [y|].
      * split; [intros [= ->]; right; left; auto
               | intros [H|[[_ H]|(_ & H & _)]]; congruence].
      * destruct (nonEmpty (idOnly (makeKeys q))).
        -- split; [intros H; right; right; auto
                  | intros [H|[[_ H]|(_ & _ & _ & H)]]; congruence].
        -- split; [discriminate | intros [H|[[_ H]|(_ & _ & H & _)]]; congruence].
Qed.

(* ------------------------------------------------------------------ *)
(** ** Concrete runs *)

(** C4 (as stated, refuted): with two unexpired records under the same chat
    and message id, a lookup that matches only the loose key returns the
    later one, which is not the record the strict-key lookup returns for the
    identity of the earlier one. *)
Lemma loose_lookup_returns_latest_insert :
  JSMap.get (strict (makeKeys (Some (keyC1M1 (Some "P3"))))) (strictMap twoSenders) = None
  /\ loose (makeKeys (Some (keyC1M1 (Some "P3")))) = loose (makeKeys (Some (keyC1M1 (Some "P1"))))
  /\ option_map rid (fst (getByRevokedKey 2 (Some (keyC1M1 (Some "P1"))) twoSenders)) = Some O
  /\ option_map rid (fst (getByRevokedKey 2 (Some (keyC1M1 (Some "P3"))) twoSenders)) = Some 1%nat
  /\ fst (getByRevokedKey 2 (Some (keyC1M1 (Some "P3"))) twoSenders)
     <> fst (getByRevokedKey 2 (Some (keyC1M1 (Some "P1"))) twoSenders).
Proof. repeat split. cbv. discriminate. Qed.

Lemma loose_key_fallback_witness :
  let c := add 0 (Some (keyC1M1 (Some ""))) helloMessage None (newCache 1000) in
  getByRevokedKey 5 (Some (keyC1M1 (Some "P9"))) c = (Some (mkRec O 0 helloMessage None), c)
  /\ getByRevokedKey 5 (Some (keyC1M1 (Some ""))) c = (Some (mkRec O 0 helloMessage None), c).
Proof.
  intros c.
  destruct (loose_key_fallback 5 (Some (keyC1M1 (Some ""))) (Some (keyC1M1 (Some "P9"))) c
              (mkRec O 0 helloMessage None)) as (H1 & H2 & _);
    [reflexivity | reflexivity | cbv; discriminate | reflexivity | reflexivity |].
  split; assumption.
Defined.

Lemma add_replaces_one_strict_key_witness :
  let c := twoSenders in
  let c' := add 7 (Some (keyC1M1 (Some "P1")))
                (mkWAMessage (Some (keyC1M1 (Some "P1"))) (Some (textMessage "edited"))) None c in
  option_map at_ (JSMap.get "C1|M1|P1" (strictMap c')) = Some 7
  /\ JSMap.get "C1|M1|P2" (strictMap c') = JSMap.get "C1|M1|P2" (strictMap c).
Proof.
  intros c c'.
  destruct (add_replaces_one_strict_key 7 (Some (keyC1M1 (Some "P1")))
              (mkWAMessage (Some (keyC1M1 (Some "P1"))) (Some (textMessage "edited"))) None c)
    as (H1 & _ & _ & _ & H3).
  - repeat constructor; cbn; intuition discriminate.
  - split.
    + unfold c'. change "C1|M1|P1" with (strict (makeKeys (Some (keyC1M1 (Some "P1"))))).
      rewrite H1. reflexivity.
    + apply H3; [cbv; discriminate | discriminate].
Defined.

Lemma capacity_eviction_witness :
  NoDup (map strictOf (demoOps demoCount ++ [demoOp demoCount]))
  /\ MAX_CACHE * 3 < totalSize (replay (demoOps demoCount) (newCache DEFAULT_TTL_MS))
  /\ totalSize (applyAdd (replay (demoOps demoCount) (newCache DEFAULT_TTL_MS))
                         (demoOp demoCount)) < MAX_CACHE * 3
  /\ Z.of_nat (length (victims evictBatch
                         (replay (demoOps demoCount) (newCache DEFAULT_TTL_MS)))) = 1500
  /\ Z.of_nat (length (strictMap (applyAdd (replay (demoOps demoCount)
                                                   (newCache DEFAULT_TTL_MS))
                                           (demoOp demoCount)))) = 3502.
Proof.
  assert (N : NoDup (map strictOf (demoOps demoCount ++ [demoOp demoCount]))).
  { pose proof (demo_distinct (S demoCount)) as H. unfold demoOps in H.
    rewrite seq_S, map_app in H. exact H. }
  split; [exact N|]. split; [exact demo_over_mark|].
  destruct (capacity_eviction DEFAULT_TTL_MS (demoOps demoCount) (demoOp demoCount) N)
    as (_ & H & _).
  destruct (H demo_over_mark) as (_ & Hlen & _ & _ & _ & Hsize & _ & _ & _ & _ & Hstrict & _).
  split; [exact Hsize|]. split; [exact Hlen|].
  rewrite Hstrict, demo_replay by (rewrite demoCount_value; lia).
  unfold demoCache. cbn [strictMap]. rewrite length_map, length_seq, demoCount_value.
  reflexivity.
Defined.

Lemma handleRevoke_without_chat_id_witness :
  let rk := mkKey None (Some "M1") None in
  enabled helloWorld = true
  /\ option_map rid (fst (getByRevokedKey 1000 (Some rk) (cache helloWorld))) = Some O
  /\ handleRevoke flakyHost plainOptions (Some rk) None helloWorld = (Returned tt, helloWorld).
Proof.
  intros rk. split; [reflexivity|]. split; [reflexivity|].
  apply (handleRevoke_without_chat_id flakyHost plainOptions rk None helloWorld).
  reflexivity.
Defined.

Lemma handleRevoke_miss_witness :
  exists attempts w',
    handleRevoke flakyHost plainOptions (Some (keyC1M1 None)) None freshWorld
    = (Returned tt, w')
    /\ log w' = (log freshWorld ++ attempts)%list
    /\ wrappedSend (targetOf freshWorld (keyC1M1 None))
         (TextContent
            (noticeAt flakyHost plainOptions (S (steps freshWorld))
                      (deleterOf (keyC1M1 None) None) (orEmpty (remoteJid (keyC1M1 None)))
             ++ String "010" "(Couldn't restore content)"))
         attempts.
Proof.
  apply (handleRevoke_miss flakyHost plainOptions (keyC1M1 None) None freshWorld);
    reflexivity.
Defined.

Lemma handleRevoke_media_download_fails_witness :
  exists attempts w',
    handleRevoke flakyHost plainOptions (Some (keyC1M1 (Some ""))) None picWorld
    = (Returned tt, w')
    /\ log w' = (log picWorld ++ attempts)%list
    /\ wrappedSend "owner@s.whatsapp.net"
         (TextContent
            (noticeAt flakyHost plainOptions (S (steps picWorld)) "C1" "C1"
             ++ String "010" "(Media could not be restored)"))
         attempts
    /\ Forall (fun a => exists body, payload a = TextContent body) attempts.
Proof.
  destruct (handleRevoke_media_download_fails flakyHost plainOptions
              (keyC1M1 (Some "")) None picWorld
              (mkRec O 0 picMessage (Some "C1")) image) as [H _];
    [reflexivity | reflexivity | reflexivity | reflexivity | reflexivity |].
  exact H.
Defined.

(** Scenario A: "hello" archived without participant, revoked with
    participant P9. *)
Lemma text_round_trip_witness :
  exists attempts w',
    handleRevoke flakyHost plainOptions (Some (keyC1M1 (Some "P9"))) None helloWorld
    = (Returned tt, w')
    /\ log w' = (log helloWorld ++ attempts)%list
    /\ wrappedSend "owner@s.whatsapp.net"
         (TextContent
            (noticeAt flakyHost plainOptions (S (steps helloWorld)) "P9" "C1"
             ++ String "010" (String "010" "hello")))
         attempts.
Proof.
  destruct (text_round_trip flakyHost plainOptions (keyC1M1 (Some "P9")) None helloWorld
              (mkRec O 0 helloMessage (Some "C1"))) as [H _];
    [reflexivity | reflexivity | reflexivity | reflexivity | cbv; discriminate |].
  exact H.
Defined.

Lemma disabled_flag_freezes_archive_witness :
  onUpsert flakyHost plainOptions [picMessage] (disable helloWorld)
  = (Returned tt, disable helloWorld)
  /\ getByRevokedKey 1000 (Some (keyC1M1 (Some ""))) (cache (disable helloWorld))
     = getByRevokedKey 1000 (Some (keyC1M1 (Some ""))) (cache helloWorld)
  /\ exists w1 r,
       onUpsert flakyHost plainOptions [picMessage] (enable (disable helloWorld))
       = (Returned tt, w1)
       /\ fst (getByRevokedKey 2000 (key picMessage) (cache w1)) = Some r
       /\ container r = picMessage.
Proof.
  destruct (disabled_flag_freezes_archive flakyHost plainOptions helloWorld [picMessage])
    as (_ & H2 & _ & H4 & H5).
  split; [exact H2|]. split; [apply H4|].
  destruct (H5 picMessage 2000) as (w1 & r & E1 & E2 & E3 & _);
    [reflexivity | reflexivity | cbv; discriminate |].
  exists w1, r. auto.
Defined.

(* ------------------------------------------------------------------ *)
(** ** Resolver: wrapping and the content-type function *)

Lemma resolvePresent_wrapIn gct k inner :
  resolvePresent gct (wrapIn k inner) = resolvePresent gct inner.
Proof. destruct k; reflexivity. Qed.

(** X1: resolving undoes wrapping.  A node that is not itself a wrapper,
    put under any stack of ephemeral and view-once layers in any order, is
    what [resolveContentNode] returns, with the content type of that node;
    text and media kind of the wrapped message are those of the node. *)
Theorem resolve_unwraps :
  forall (gct : Message -> option string) (ks : list WrapperKind) (inner : Message),
    isWrapper inner = false ->
    resolveContentNode gct (Some (wrapAll ks inner)) = mkResolved (Some inner) (gct inner)
    /\ extractText gct (Some (wrapAll ks inner)) = extractText gct (Some inner)
    /\ detectMediaKind gct (Some (wrapAll ks inner)) = detectMediaKind gct (Some inner).
Proof.
  intros gct ks inner Hw.
  assert (E : resolvePresent gct (wrapAll ks inner) = resolvePresent gct inner).
  { induction ks as [|k ks IH]; [reflexivity|].
    cbn [wrapAll fold_right]. rewrite resolvePresent_wrapIn. exact IH. }
  assert (L : resolvePresent gct inner = mkResolved (Some inner) (gct inner)).
  { unfold isWrapper in Hw. destruct inner as [e v1 v2 v3 c x i v s a dm ll lm p].
    cbn in Hw. destruct e, v1, v2, v3; try discriminate Hw. reflexivity. }
  unfold extractText, detectMediaKind, resolveContentNode. rewrite E, L. auto.
Qed.

Lemma resolve_unwraps_witness :
  extractText (fun _ => None)
    (Some (wrapAll [Ephemeral; ViewOnceV2] (textMessage "hello"))) = "hello".
Proof.
  destruct (resolve_unwraps (fun _ => None) [Ephemeral; ViewOnceV2] (textMessage "hello")
              eq_refl) as (_ & H & _).
  rewrite H. reflexivity.
Defined.

Lemma resolvePresent_node_any gct gct' msg :
  node (resolvePresent gct msg) = node (resolvePresent gct' msg).
Proof.
  induction msg as [msg IH] using
    (well_founded_induction (well_founded_ltof _ wrapperDepth)).
  destruct msg as [e v1 v2 v3 c x i v s a dm ll lm p].
  assert (W : forall w : Wrapper,
             (match w_message w with
              | None => 1
              | Some inner => S (wrapperDepth inner)
              end <= wrapperDepth (mkMessage e v1 v2 v3 c x i v s a dm ll lm p))%nat ->
             node match w_message w with
                  | None => noContent
                  | Some inner => resolvePresent gct inner
                  end
             = node match w_message w with
                    | None => noContent
                    | Some inner => resolvePresent gct' inner
                    end).
  { intros [[inner|]]; cbn [w_message]; intros Hd; [|reflexivity].
    apply IH. unfold ltof. lia. }
  cbn [resolvePresent wrapperDepth ephemeralMessage viewOnceMessage
       viewOnceMessageV2 viewOnceMessageV2Extension] in *.
  destruct e as [w|]; [apply W; lia|].
  destruct v1 as [w|]; [apply W; lia|].
  destruct v2 as [w|]; [apply W; lia|].
  destruct v3 as [w|]; [apply W; lia|].
  reflexivity.
Qed.

(** X2: the text and the media kind recovered from an envelope do not
    depend on what Baileys' [getContentType] answers: two content-type
    functions give the same node, the same text and the same kind. *)
Theorem text_and_kind_ignore_content_type :
  forall (gct gct' : Message -> option string) (m : option Message),
    node (resolveContentNode gct m) = node (resolveContentNode gct' m)
    /\ extractText gct m = extractText gct' m
    /\ detectMediaKind gct m = detectMediaKind gct' m.
Proof.
  intros gct gct' m.
  assert (E : node (resolveContentNode gct m) = node (resolveContentNode gct' m)).
  { destruct m as [msg|]; [apply resolvePresent_node_any | reflexivity]. }
  unfold extractText, detectMediaKind. rewrite E. auto.
Qed.

(* ------------------------------------------------------------------ *)
(** ** Keys *)

Lemma bar_split_unique a a' b b' :
  lacks "|" a = true -> lacks "|" a' = true ->
  a ++ String "|" b = a' ++ String "|" b' -> a = a' /\ b = b'.
Proof.
  revert a'. induction a as [|c a IH]; intros [|c' a'] Ha Ha' E; cbn in *.
  - injection E as ->. auto.
  - injection E as <- _. now rewrite Ascii.eqb_refl in Ha'.
  - injection E as -> _. now rewrite Ascii.eqb_refl in Ha.
  - injection E as -> E.
    apply andb_true_iff in Ha, Ha'.
    destruct (IH a' (proj2 Ha) (proj2 Ha') E) as [-> ->]. auto.
Qed.

(** X3: for identities whose chat id and message id contain no ['|'], the
    strict key determines the identity: two keys with the same strict key
    have the same chat id, message id and participant (absent read as
    empty), hence the same loose and id-only keys; and the loose key alone
    determines chat id and message id. *)
Theorem makeKeys_injective :
  forall k k' : option MessageKey,
    lacks "|" (orEmpty (optField remoteJid k)) = true ->
    lacks "|" (orEmpty (optField remoteJid k')) = true ->
    lacks "|" (orEmpty (optField id k)) = true ->
    lacks "|" (orEmpty (optField id k')) = true ->
    (strict (makeKeys k) = strict (makeKeys k') ->
     fieldsOf k = fieldsOf k'
     /\ loose (makeKeys k) = loose (makeKeys k')
     /\ idOnly (makeKeys k) = idOnly (makeKeys k'))
    /\ (loose (makeKeys k) = loose (makeKeys k') ->
        orEmpty (optField remoteJid k) = orEmpty (optField remoteJid k')
        /\ idOnly (makeKeys k) = idOnly (makeKeys k')).
Proof.
  intros k k' Hj Hj' Hi Hi'. unfold makeKeys, fieldsOf. cbn [strict loose idOnly].
  set (j := orEmpty (optField remoteJid k)) in *.
  set (j' := orEmpty (optField remoteJid k')) in *.
  set (i := orEmpty (optField id k)) in *.
  set (i' := orEmpty (optField id k')) in *.
  set (p := orEmpty (optField participant k)).
  set (p' := orEmpty (optField participant k')).
  split.
  - intros E. change (j ++ String "|" (i ++ String "|" p) = j' ++ String "|" (i' ++ String "|" p')) in E.
    apply bar_split_unique in E; [|assumption|assumption]. destruct E as [-> E].
    apply bar_split_unique in E; [|assumption|assumption]. destruct E as [-> ->]. auto.
  - intros E. change (j ++ String "|" i = j' ++ String "|" i') in E.
    apply bar_split_unique in E; [|assumption|assumption]. destruct E as [-> ->]. auto.
Qed.

Lemma makeKeys_injective_witness :
  fieldsOf (Some (mkKey (Some "C1") (Some "M1") None))
  = fieldsOf (Some (mkKey (Some "C1") (Some "M1") (Some ""))).
Proof.
  destruct (makeKeys_injective (Some (mkKey (Some "C1") (Some "M1") None))
              (Some (mkKey (Some "C1") (Some "M1") (Some "")))
              eq_refl eq_refl eq_refl eq_refl) as [H _].
  destruct (H eq_refl) as [E _]. exact E.
Defined.

(* ------------------------------------------------------------------ *)
(** ** The sweep *)

Lemma cleanup_none_expired now c r :
  cached r (cleanup now c) -> now - at_ r <= ttlMs c.
Proof.
  intros Hr. unfold cached, cleanup in Hr. cbn [strictMap looseMap idMap] in Hr.
  rewrite !deleteWhere_values in Hr.
  assert (E : (ttlMs c <? now - at_ r) = false) by tauto.
  now apply Z.ltb_ge.
Qed.

Lemma cleanup_gets now c k :
  NoDup (JSMap.keys (strictMap c)) ->
  NoDup (JSMap.keys (looseMap c)) ->
  NoDup (JSMap.keys (idMap c)) ->
  JSMap.get k (strictMap (cleanup now c))
  = match JSMap.get k (strictMap c) with
    | Some r => if expired now c r then None else Some r
    | None => None
    end
  /\ JSMap.get k (looseMap (cleanup now c))
     = match JSMap.get k (looseMap c) with
       | Some r => if expired now c r then None else Some r
       | None => None
       end
  /\ JSMap.get k (idMap (cleanup now c))
     = match JSMap.get k (idMap c) with
       | Some r => if expired now c r then None else Some r
       | None => None
       end.
Proof.
  intros Ns Nl Ni. unfold cleanup, expired. cbn [strictMap looseMap idMap].
  repeat split; now apply get_deleteWhere.
Qed.

(** X4: the sweep removes exactly the expired records.  After [cleanup] at
    time [now] no index holds a record older than the TTL, and (the keys of
    each index being distinct, as in every [Map]) each index answers a key
    with the record it held before if that record has not expired, and with
    nothing otherwise. *)
Theorem cleanup_sweeps :
  forall (now : Z) (c : MessageCache),
    NoDup (JSMap.keys (strictMap c)) ->
    NoDup (JSMap.keys (looseMap c)) ->
    NoDup (JSMap.keys (idMap c)) ->
    (forall r, cached r (cleanup now c) -> now - at_ r <= ttlMs c)
    /\ (forall k,
          JSMap.get k (strictMap (cleanup now c))
          = match JSMap.get k (strictMap c) with
            | Some r => if expired now c r then None else Some r
            | None => None
            end
          /\ JSMap.get k (looseMap (cleanup now c))
             = match JSMap.get k (looseMap c) with
               | Some r => if expired now c r then None else Some r
               | None => None
               end
          /\ JSMap.get k (idMap (cleanup now c))
             = match JSMap.get k (idMap c) with
               | Some r => if expired now c r then None else Some r
               | None => None
               end).
Proof.
  intros now c Ns Nl Ni. split.
  - intros r. apply cleanup_none_expired.
  - intros k. now apply cleanup_gets.
Qed.

Lemma cleanup_sweeps_witness :
  JSMap.get "C1|M1|P1" (strictMap (cleanup 1001 twoSenders)) = None
  /\ option_map rid (JSMap.get "C1|M1|P2" (strictMap (cleanup 1001 twoSenders))) = Some 1%nat.
Proof.
  destruct (cleanup_sweeps 1001 twoSenders) as [_ H].
  - repeat constructor; cbn; intuition discriminate.
  - repeat constructor; cbn; intuition discriminate.
  - repeat constructor; cbn; intuition discriminate.
  - split.
    + destruct (H "C1|M1|P1") as (E & _ & _). rewrite E. reflexivity.
    + destruct (H "C1|M1|P2") as (E & _ & _). rewrite E. reflexivity.
Defined.

Lemma firstHit_cached ks c r : firstHit ks c = Some r -> cached r c.
Proof.
  unfold firstHit, cached, JSMap.values. intros H.
  destruct (JSMap.get (strict ks) (strictMap c)) as [x|] eqn:Es.
  - injection H as ->. left. apply get_in in Es. apply in_map_iff. exists (strict ks, r). auto.
  - destruct (JSMap.get (loose ks) (looseMap c)) as [y|] eqn:El.
    + injection H as ->. right. left. apply get_in in El.
      apply in_map_iff. exists (loose ks, r). auto.
    + destruct (nonEmpty (idOnly ks)); [|discriminate H].
      right. right. apply get_in in H. apply in_map_iff. exists (idOnly ks, r). auto.
Qed.

(** X5: the sweep and the lookup agree.  A lookup made right after a sweep
    (same clock reading) never has anything left to purge, and the sweep
    never costs a hit: a key that was answered with a record before the
    sweep is answered with the same record after it. *)
Theorem cleanup_then_lookup :
  forall (now : Z) (k : option MessageKey) (c : MessageCache) (r : Rec),
    NoDup (JSMap.keys (strictMap c)) ->
    NoDup (JSMap.keys (looseMap c)) ->
    NoDup (JSMap.keys (idMap c)) ->
    fst (getByRevokedKey now k c) = Some r ->
    getByRevokedKey now k (cleanup now c) = (Some r, cleanup now c)
    /\ forall k', snd (getByRevokedKey now k' (cleanup now c)) = cleanup now c.
Proof.
  intros now k c r Ns Nl Ni H.
  pose proof (cleanup_none_expired now c) as Hold.
  pose proof (fun key => cleanup_gets now c key Ns Nl Ni) as Hget.
  assert (Hfresh : forall k' x, firstHit (makeKeys k') (cleanup now c) = Some x ->
                                getByRevokedKey now k' (cleanup now c) = (Some x, cleanup now c)).
  { intros k' x Hx. apply fresh_hit; [exact Hx|].
    apply firstHit_cached in Hx. now apply Hold. }
  split.
  - apply Hfresh.
    unfold getByRevokedKey in H.
    destruct (firstHit (makeKeys k) c) as [x|] eqn:Hx; [|discriminate H].
    destruct (ttlMs c <? now - at_ x) eqn:Ex; [discriminate H|].
    cbn in H. injection H as ->.
    unfold firstHit in *.
    destruct (Hget (strict (makeKeys k))) as (Es & _ & _).
    destruct (Hget (loose (makeKeys k))) as (_ & El & _).
    destruct (Hget (idOnly (makeKeys k))) as (_ & _ & Ei).
    rewrite Es, El, Ei. unfold expired.
    destruct (JSMap.get (strict (makeKeys k)) (strictMap c)) as [y|].
    + injection Hx as ->. now rewrite Ex.
    + destruct (JSMap.get (loose (makeKeys k)) (looseMap c)) as [y|].
      * injection Hx as ->. now rewrite Ex.
      * destruct (nonEmpty (idOnly (makeKeys k))); [|discriminate Hx].
        rewrite Hx. now rewrite Ex.
  - intros k'.
    destruct (firstHit (makeKeys k') (cleanup now c)) as [x|] eqn:Hx.
    + now rewrite (Hfresh k' x Hx).
    + unfold getByRevokedKey. now rewrite Hx.
Qed.

Lemma cleanup_then_lookup_witness :
  getByRevokedKey 2 (Some (keyC1M1 (Some "P3"))) (cleanup 2 twoSenders)
  = (Some (mkRec 1 1 (mkWAMessage (Some (keyC1M1 (Some "P2"))) (Some (textMessage "second")))
                 None),
     cleanup 2 twoSenders).
Proof.
  apply (cleanup_then_lookup 2 (Some (keyC1M1 (Some "P3"))) twoSenders).
  - repeat constructor; cbn; intuition discriminate.
  - repeat constructor; cbn; intuition discriminate.
  - repeat constructor; cbn; intuition discriminate.
  - reflexivity.
Defined.

(* ------------------------------------------------------------------ *)
(** ** Eviction: bounds, order, and what it cannot reach *)

Lemma sortByAt_of_sorted l : StronglySorted olderOrSame l -> sortByAt l = l.
Proof.
  induction 1 as [|e l S IH F]; [reflexivity|].
  cbn [sortByAt]. rewrite IH. destruct l as [|e' l']; [reflexivity|].
  cbn [insertByAt]. inversion F as [|? ? Hle _]; subst.
  unfold olderOrSame in Hle. apply Z.leb_le in Hle. now rewrite Hle.
Qed.

(** With the records of [strictMap] in timestamp order, the victims are its
    first entries. *)
Lemma victims_of_sorted count c :
  StronglySorted olderOrSame (strictMap c) ->
  victims count c = JSMap.values (firstn count (strictMap c)).
Proof. intros S. unfold victims. now rewrite (sortByAt_of_sorted _ S). Qed.

Lemma sorted_snoc_inv {A} (R : A -> A -> Prop) l x :
  StronglySorted R (l ++ [x]) -> StronglySorted R l /\ Forall (fun y => R y x) l.
Proof.
  induction l as [|y l IH]; cbn; intros S; [split; constructor|].
  apply StronglySorted_inv in S. destruct S as [S F].
  destruct (IH S) as [S' F']. split.
  - constructor; [assumption|]. apply Forall_app in F. tauto.
  - constructor; [|assumption]. apply Forall_app in F. destruct F as [_ F].
    now inversion F.
Qed.

Lemma sorted_snoc {A} (R : A -> A -> Prop) l x :
  StronglySorted R l -> Forall (fun y => R y x) l -> StronglySorted R (l ++ [x]).
Proof.
  induction 1 as [|y l S IH F]; cbn; intros Fx; [repeat constructor|].
  inversion Fx as [|? ? Hy Hl]; subst. constructor; [now apply IH|].
  apply Forall_app. split; [assumption | now constructor].
Qed.

Lemma sorted_filter {A} (R : A -> A -> Prop) (p : A -> bool) l :
  StronglySorted R l -> StronglySorted R (filter p l).
Proof.
  induction 1 as [|y l S IH F]; cbn; [constructor|].
  destruct (p y); [|assumption]. constructor; [assumption|].
  apply Forall_forall. intros z Hz. apply filter_In in Hz.
  apply (proj1 (Forall_forall _ _) F). tauto.
Qed.

Lemma sorted_dropped vs c :
  StronglySorted olderOrSame (strictMap c) ->
  StronglySorted olderOrSame (strictMap (fold_left dropRec vs c)).
Proof.
  revert c. induction vs as [|v vs IH]; intros c S; cbn [fold_left]; [assumption|].
  apply IH. cbn [dropRec strictMap]. now apply sorted_filter.
Qed.

(** Inserts under distinct strict keys with a clock that never runs
    backwards keep [strictMap] in timestamp order. *)
Lemma replay_sorted ttl ops :
  NoDup (map strictOf ops) ->
  StronglySorted Z.le (map op_now ops) ->
  StronglySorted olderOrSame (strictMap (replay ops (newCache ttl)))
  /\ forall r, In r (JSMap.values (strictMap (replay ops (newCache ttl)))) ->
                In (at_ r) (map op_now ops).
Proof.
  induction ops as [|op ops IH] using rev_ind; intros N T.
  - split; [constructor | intros r []].
  - rewrite map_app in N, T. cbn [map] in N, T.
    assert (N1 : NoDup (map strictOf ops)) by (eapply NoDup_app_remove_r; exact N).
    assert (N2 : ~ In (strictOf op) (map strictOf ops)).
    { apply NoDup_remove_2 in N. now rewrite app_nil_r in N. }
    apply sorted_snoc_inv in T. destruct T as [T1 T2].
    destruct (IH N1 T1) as [S B]. destruct (replay_inv ttl ops N1) as [HI _].
    rewrite replay_snoc. unfold applyAdd. rewrite add_unfold. cbv zeta.
    set (c := replay ops (newCache ttl)) in *.
    set (c1 := if MAX_CACHE * 3 <? totalSize c then evictOldest evictBatch c else c).
    assert (S1 : StronglySorted olderOrSame (strictMap c1)).
    { unfold c1. destruct (MAX_CACHE * 3 <? totalSize c); [now apply sorted_dropped | assumption]. }
    assert (B1 : forall r, In r (JSMap.values (strictMap c1)) -> In r (JSMap.values (strictMap c))).
    { unfold c1. destruct (MAX_CACHE * 3 <? totalSize c); [|auto].
      intros r Hr. unfold evictOldest in Hr.
      now apply (dropped_values (victims evictBatch c) c r) in Hr. }
    assert (K1 : ~ In (strict (makeKeys (op_key op))) (JSMap.keys (strictMap c1))).
    { assert (HI1 : Inv (map strictOf ops) c1).
      { unfold c1. destruct (MAX_CACHE * 3 <? totalSize c); [|assumption].
        unfold evictOldest. now apply Inv_dropped. }
      intros I. apply N2. now apply (inv_keys _ _ HI1). }
    cbn [strictMap]. rewrite set_fresh by exact K1. split.
    + apply sorted_snoc; [assumption|]. apply Forall_forall. intros [k r] Hr.
      unfold olderOrSame. cbn [snd at_].
      assert (Hat : In (at_ r) (map op_now ops)).
      { apply B, B1. unfold JSMap.values. apply in_map_iff. exists (k, r). auto. }
      apply (proj1 (Forall_forall _ _) T2 _ Hat).
    + intros r Hr. unfold JSMap.values in Hr. rewrite map_app in Hr.
      rewrite map_app. apply in_or_app. apply in_app_or in Hr. destruct Hr as [Hr|[<-|[]]].
      * left. now apply B, B1.
      * right. now left.
Qed.

(** X6: eviction is first-in, first-out.  In a cache filled by inserts
    under pairwise distinct strict keys, with a clock that never runs
    backwards, the victims of [evictOldest count] are the first [count]
    records of [strictMap] in insertion order (all of them if there are
    fewer). *)
Theorem evictOldest_fifo :
  forall (ttl : Z) (ops : list AddOp) (count : nat),
    NoDup (map strictOf ops) ->
    StronglySorted Z.le (map op_now ops) ->
    victims count (replay ops (newCache ttl))
    = JSMap.values (firstn count (strictMap (replay ops (newCache ttl))))
    /\ length (victims count (replay ops (newCache ttl)))
       = Nat.min count (length (strictMap (replay ops (newCache ttl)))).
Proof.
  intros ttl ops count N T.
  destruct (replay_sorted ttl ops N T) as [S _].
  rewrite (victims_of_sorted _ _ S). split; [reflexivity|].
  unfold JSMap.values. now rewrite length_map, length_firstn.
Qed.

Lemma evictOldest_fifo_witness :
  map rid (victims 1 (replay (demoOps 3) (newCache 1000))) = [O].
Proof.
  destruct (evictOldest_fifo 1000 (demoOps 3) 1) as [E _].
  - apply demo_distinct.
  - repeat constructor; cbv; discriminate.
  - rewrite E. reflexivity.
Defined.

(** X7: bounds of the eviction loop.  Asked for at least as many records
    as [strictMap] holds, [evictOldest] empties [strictMap] and leaves in the
    other two indexes only entries whose record [strictMap] did not hold;
    asked for none, it changes nothing. *)
Theorem evictOldest_bounds :
  forall (count : nat) (c : MessageCache),
    evictOldest O c = c
    /\ ((length (strictMap c) <= count)%nat ->
        strictMap (evictOldest count c) = []
        /\ forall r v, cached r (evictOldest count c) ->
                       In v (JSMap.values (strictMap c)) -> rid r <> rid v).
Proof.
  intros count c. split; [reflexivity|]. intros Hc.
  assert (Hall : forall v, In v (JSMap.values (strictMap c)) -> In v (victims count c)).
  { intros v Hv. unfold victims.
    rewrite firstn_all2 by (rewrite (Permutation_length (sortByAt_perm (strictMap c))); lia).
    unfold JSMap.values in *. apply in_map_iff in Hv. destruct Hv as (e & E & I).
    apply in_map_iff. exists e. split; [assumption|].
    apply (Permutation_in _ (Permutation_sym (sortByAt_perm (strictMap c)))). exact I. }
  split.
  - destruct (strictMap (evictOldest count c)) as [|e l] eqn:E; [reflexivity|].
    assert (I : In e (strictMap (evictOldest count c))) by (rewrite E; now left).
    unfold evictOldest in I. apply dropped_strict_entries in I. destruct I as [I F].
    assert (Hv : In (snd e) (victims count c)).
    { apply Hall. unfold JSMap.values. now apply in_map. }
    specialize (F (snd e) Hv). unfold sameRec in F. now rewrite Nat.eqb_refl in F.
  - intros r v Hr Hv. apply (victims_gone c count v r); [now apply Hall | exact Hr].
Qed.

Lemma evictOldest_bounds_witness :
  strictMap (evictOldest 5 twoSenders) = [].
Proof.
  destruct (evictOldest_bounds 5 twoSenders) as [_ H].
  destruct H as [E _]; [cbv; lia | exact E].
Defined.

(** X8: eviction reaches only what [strictMap] holds.  An entry of the
    loose or id-only index whose record is not (or no longer) held by
    [strictMap] survives [evictOldest], whatever the count. *)
Theorem evictOldest_spares_orphans :
  forall (count : nat) (c : MessageCache) (r : Rec),
    (forall v, In v (JSMap.values (strictMap c)) -> rid v <> rid r) ->
    (In r (JSMap.values (looseMap c)) ->
     In r (JSMap.values (looseMap (evictOldest count c))))
    /\ (In r (JSMap.values (idMap c)) ->
        In r (JSMap.values (idMap (evictOldest count c)))).
Proof.
  intros count c r Hn.
  assert (F : forall v, In v (victims count c) -> sameRec v r = false).
  { intros v Hv. unfold sameRec. apply Nat.eqb_neq. intros E.
    apply (Hn v); [now apply (victims_incl c count) | now symmetry]. }
  unfold evictOldest.
  destruct (dropped_values (victims count c) c r) as (_ & Hl & Hi).
  split; intros H; [apply Hl | apply Hi]; auto.
Qed.

Lemma evictOldest_spares_orphans_witness :
  map rid (JSMap.values (strictMap collidingCache)) = [1%nat]
  /\ In (mkRec O 0 (mkWAMessage (Some (mkKey (Some "a") (Some "b") (Some "c|d")))
                                (Some (textMessage "first"))) None)
        (JSMap.values (looseMap (evictOldest 5 collidingCache))).
Proof.
  split; [reflexivity|].
  destruct (evictOldest_spares_orphans 5 collidingCache
              (mkRec O 0 (mkWAMessage (Some (mkKey (Some "a") (Some "b") (Some "c|d")))
                                      (Some (textMessage "first"))) None)) as [H _].
  - intros v [<-|[]]. cbn. discriminate.
  - apply H. cbn. now left.
Defined.

(* ------------------------------------------------------------------ *)
(** ** The handlers never raise *)

Lemma wrappedSend_facts jid content l :
  wrappedSend jid content l ->
  (length l <= 2)%nat
  /\ Forall (fun a => to a = jid) l
  /\ Forall (fun a => payload a = content) l.
Proof.
  intros [->|[b ->]]; cbn; repeat split; repeat constructor.
Qed.

Lemma delete_length {V} k (m : JSMap.t V) : (length (JSMap.delete k m) <= length m)%nat.
Proof. apply filter_length_le. Qed.

(** A lookup creates nothing: it leaves the TTL and the allocation counter
    alone and never enlarges the indexes. *)
Lemma getByRevokedKey_shrinks now k c :
  nextRid (snd (getByRevokedKey now k c)) = nextRid c
  /\ ttlMs (snd (getByRevokedKey now k c)) = ttlMs c
  /\ totalSize (snd (getByRevokedKey now k c)) <= totalSize c.
Proof.
  unfold getByRevokedKey.
  destruct (firstHit (makeKeys k) c) as [r|]; [|cbn; lia].
  destruct (ttlMs c <? now - at_ r); [|cbn; lia].
  cbn [snd nextRid ttlMs]. repeat split.
  unfold totalSize, JSMap.size. cbn [strictMap looseMap idMap].
  pose proof (delete_length (strict (makeKeys k)) (strictMap c)).
  pose proof (delete_length (loose (makeKeys k)) (looseMap c)).
  pose proof (delete_length (idOnly (makeKeys k)) (idMap c)).
  destruct (nonEmpty (idOnly (makeKeys k))); lia.
Qed.

Section Totality.

Variable host : Host.
Variable options : Options.

(** Two wrapped sends in a row. *)
Lemma safeSend_twice jid c1 c2 w :
  exists a1 a2 w',
    (safeSend host jid c1 ;;; safeSend host jid c2) w = (Returned tt, w')
    /\ log w' = (log w ++ a1 ++ a2)%list
    /\ sameState w w'
    /\ wrappedSend jid c1 a1
    /\ wrappedSend jid c2 a2.
Proof.
  destruct (safeSend_spec host jid c1 w) as (a1 & w1 & E1 & L1 & (S1a & S1b & S1c) & W1).
  destruct (safeSend_spec host jid c2 w1) as (a2 & w2 & E2 & L2 & (S2a & S2b & S2c) & W2).
  exists a1, a2, w2. unfold bind. rewrite E1, E2, L2, L1, app_assoc.
  repeat split; try assumption; congruence.
Qed.

(** Every run of [handleRevoke]: a normal return, at most two wrapped
    sends, all to the target, and no change to the flag, the forward target
    or (beyond what the lookup purged) the cache. *)
Lemma handleRevoke_total revokedKey revoker w :
  exists attempts w',
    handleRevoke host options revokedKey revoker w = (Returned tt, w')
    /\ log w' = (log w ++ attempts)%list
    /\ enabled w' = enabled w
    /\ forwardToJid w' = forwardToJid w
    /\ (cache w' = cache w
        \/ cache w' = snd (getByRevokedKey (dateNow host (steps w)) revokedKey (cache w)))
    /\ (length attempts <= 4)%nat
    /\ (forall rk, revokedKey = Some rk -> Forall (fun a => to a = targetOf w rk) attempts).
Proof.
  assert (Nothing : exists attempts w',
             (Returned tt, w) = (Returned tt, w')
             /\ log w' = (log w ++ attempts)%list
             /\ enabled w' = enabled w
             /\ forwardToJid w' = forwardToJid w
             /\ (cache w' = cache w
                 \/ cache w' = snd (getByRevokedKey (dateNow host (steps w)) revokedKey (cache w)))
             /\ (length attempts <= 4)%nat
             /\ (forall rk, revokedKey = Some rk ->
                            Forall (fun a => to a = targetOf w rk) attempts)).
  { exists [], w. rewrite app_nil_r. cbn. repeat split; auto; lia. }
  destruct revokedKey as [rk|]; [|exact Nothing].
  destruct (enabled w) eqn:He; [|unfold handleRevoke; rewrite He; exact Nothing].
  destruct (truthy (remoteJid rk)) eqn:Hc;
    [|unfold handleRevoke; rewrite He, Hc; exact Nothing].
  clear Nothing.
  destruct (handleRevoke_unfold host options rk revoker w He Hc)
    as (w1 & Hl & Hf & He1 & Hc1 & E).
  rewrite E. cbv zeta. clear E.
  set (notice := noticeAt host options (S (steps w)) (deleterOf rk revoker)
                          (orEmpty (remoteJid rk))).
  assert (One : forall content w0,
             log w0 = log w -> forwardToJid w0 = forwardToJid w ->
             enabled w0 = enabled w ->
             cache w0 = snd (getByRevokedKey (dateNow host (steps w)) (Some rk) (cache w)) ->
             exists attempts w',
               safeSend host (targetOf w rk) content w0 = (Returned tt, w')
               /\ log w' = (log w ++ attempts)%list
               /\ enabled w' = true
               /\ forwardToJid w' = forwardToJid w
               /\ (cache w' = cache w
                   \/ cache w' = snd (getByRevokedKey (dateNow host (steps w)) (Some rk)
                                                      (cache w)))
               /\ (length attempts <= 4)%nat
               /\ (forall rk0, Some rk = Some rk0 ->
                               Forall (fun a => to a = targetOf w rk0) attempts)).
  { intros content w0 L0 F0 E0 C0.
    destruct (safeSend_spec host (targetOf w rk) content w0)
      as (a & w' & Es & L & (Sa & Sb & Sc) & W).
    destruct (wrappedSend_facts _ _ _ W) as (Wl & Wt & _).
    exists a, w'. rewrite Es, L, L0. repeat split; try congruence; try lia.
    - right. congruence.
    - intros rk0 [= <-]. exact Wt. }
  destruct (fst (getByRevokedKey (dateNow host (steps w)) (Some rk) (cache w))) as [r|].
  - destruct (detectMediaKind (getContentType host) (message (container r))) as [kind|].
    + unfold tryCatch at 1, bind at 1, callDownload at 1.
      destruct (downloadMediaMessage host (steps w1) (container r)) as [buffer|].
      * destruct (safeSend_twice (targetOf w rk) (TextContent notice)
                    (buildOutgoingContent kind buffer
                       (extractText (getContentType host) (message (container r))))
                    (tick w1))
          as (a1 & a2 & w' & Es & L & (Sa & Sb & Sc) & W1 & W2).
        destruct (wrappedSend_facts _ _ _ W1) as (Wl1 & Wt1 & _).
        destruct (wrappedSend_facts _ _ _ W2) as (Wl2 & Wt2 & _).
        exists (a1 ++ a2)%list, w'.
        fold notice. rewrite Es, L. cbn [tick log enabled forwardToJid cache] in *.
        rewrite Hl, length_app. repeat split; try congruence; try lia.
        -- right. congruence.
        -- intros rk0 [= <-]. apply Forall_app. auto.
      * apply One; cbn [tick log enabled forwardToJid cache]; assumption.
    + apply One; assumption.
  - apply One; assumption.
Qed.

(** X9: [handleRevoke] never raises.  Whatever the key, the revoker, the
    state and the behaviour of the host (sends and download failing or not),
    and with a notice formatter that returns, it returns normally; it makes at most two wrapped sends (four attempts),
    every one addressed to the forward target or else the chat; it leaves
    the flag and the forward target alone, archives nothing and never
    enlarges the cache. *)
Theorem handleRevoke_never_raises :
  forall (revokedKey : option MessageKey) (revoker : option string) (w : World),
    exists attempts w',
      handleRevoke host options revokedKey revoker w = (Returned tt, w')
      /\ log w' = (log w ++ attempts)%list
      /\ (length attempts <= 4)%nat
      /\ match revokedKey with
         | Some rk => Forall (fun a => to a = targetOf w rk) attempts
         | None => attempts = []
         end
      /\ enabled w' = enabled w
      /\ forwardToJid w' = forwardToJid w
      /\ nextRid (cache w') = nextRid (cache w)
      /\ totalSize (cache w') <= totalSize (cache w).
Proof.
  intros revokedKey revoker w.
  destruct revokedKey as [rk|].
  - destruct (handleRevoke_total (Some rk) revoker w)
      as (a & w' & E & L & He & Hf & Hc & Hn & Ht).
    exists a, w'. repeat split; try assumption; [now apply Ht | |].
    + destruct Hc as [->| ->]; [reflexivity | apply getByRevokedKey_shrinks].
    + destruct Hc as [->| ->]; [lia | apply getByRevokedKey_shrinks].
  - exists [], w. rewrite app_nil_r. repeat split; auto; cbn; lia.
Qed.

End Totality.

(* ------------------------------------------------------------------ *)
(** ** Recovery: the remaining paths *)

Section MoreRecovery.

Variable host : Host.
Variable options : Options.

(** X10: media recovered.  With the feature enabled, when the lookup hits
    a record with a media kind and the download returns the bytes,
    [handleRevoke] returns normally after exactly two wrapped sends to the
    target, in this order: the bare header, then the content built from the
    kind, the bytes and the cached caption (an image or a video with its
    caption, a sticker, audio or document without one). *)
Theorem handleRevoke_media_restored :
  forall (rk : MessageKey) (revoker : option string) (w : World) (r : Rec)
         (kind : MediaKind) (buffer : Buffer),
    enabled w = true ->
    truthy (remoteJid rk) = true ->
    fst (getByRevokedKey (dateNow host (steps w)) (Some rk) (cache w)) = Some r ->
    detectMediaKind (getContentType host) (message (container r)) = Some kind ->
    (forall n, downloadMediaMessage host n (container r) = Some buffer) ->
    exists first second w',
      handleRevoke host options (Some rk) revoker w = (Returned tt, w')
      /\ log w' = (log w ++ first ++ second)%list
      /\ wrappedSend (targetOf w rk)
           (TextContent (noticeAt host options (S (steps w)) (deleterOf rk revoker)
                                  (orEmpty (remoteJid rk))))
           first
      /\ wrappedSend (targetOf w rk)
           (buildOutgoingContent kind buffer
              (extractText (getContentType host) (message (container r))))
           second
      /\ match kind with
         | image =>
           buildOutgoingContent kind buffer
             (extractText (getContentType host) (message (container r)))
           = ImageContent buffer (extractText (getContentType host) (message (container r)))
         | video =>
           buildOutgoingContent kind buffer
             (extractText (getContentType host) (message (container r)))
           = VideoContent buffer (extractText (getContentType host) (message (container r)))
         | sticker => buildOutgoingContent kind buffer
                        (extractText (getContentType host) (message (container r)))
                      = StickerContent buffer
         | audio => buildOutgoingContent kind buffer
                      (extractText (getContentType host) (message (container r)))
                    = AudioContent buffer
         | document => buildOutgoingContent kind buffer
                         (extractText (getContentType host) (message (container r)))
                       = DocumentContent buffer
         | location =>
           buildOutgoingContent kind buffer
             (extractText (getContentType host) (message (container r)))
           = TextContent
               (if nonEmpty (extractText (getContentType host) (message (container r)))
                then extractText (getContentType host) (message (container r))
                else "(location message)")
         end.
Proof.
  intros rk revoker w r kind buffer He Hc Hh Hk Hd.
  destruct (handleRevoke_unfold host options rk revoker w He Hc) as (w1 & Hl & _ & _ & _ & E).
  rewrite E, Hh. cbv zeta. rewrite Hk.
  unfold tryCatch at 1, bind at 1, callDownload at 1. rewrite Hd.
  destruct (safeSend_twice host (targetOf w rk)
              (TextContent (noticeAt host options (S (steps w)) (deleterOf rk revoker)
                                     (orEmpty (remoteJid rk))))
              (buildOutgoingContent kind buffer
                 (extractText (getContentType host) (message (container r))))
              (tick w1))
    as (a1 & a2 & w' & Es & L & _ & W1 & W2).
  exists a1, a2, w'. rewrite Es, L. cbn [tick log]. rewrite Hl.
  repeat split; try assumption. destruct kind; reflexivity.
Qed.

(** X11: content without text.  With the feature enabled, when the lookup
    hits a record that has no media kind and no text (an empty envelope, a
    reaction, a wrapper around nothing), [handleRevoke] returns normally
    after exactly one wrapped send of the header, two line feeds and the
    marker "(no text content)". *)
Theorem handleRevoke_empty_text :
  forall (rk : MessageKey) (revoker : option string) (w : World) (r : Rec),
    enabled w = true ->
    truthy (remoteJid rk) = true ->
    fst (getByRevokedKey (dateNow host (steps w)) (Some rk) (cache w)) = Some r ->
    detectMediaKind (getContentType host) (message (container r)) = None ->
    extractText (getContentType host) (message (container r)) = "" ->
    exists attempts w',
      handleRevoke host options (Some rk) revoker w = (Returned tt, w')
      /\ log w' = (log w ++ attempts)%list
      /\ wrappedSend (targetOf w rk)
           (TextContent
              (noticeAt host options (S (steps w)) (deleterOf rk revoker)
                        (orEmpty (remoteJid rk))
               ++ String "010" (String "010" "(no text content)")))
           attempts.
Proof.
  intros rk revoker w r He Hc Hh Hk Ht.
  destruct (handleRevoke_unfold host options rk revoker w He Hc) as (w1 & Hl & _ & _ & _ & E).
  rewrite E, Hh. cbv zeta. rewrite Hk, Ht. cbn [nonEmpty].
  destruct (safeSend_spec host (targetOf w rk)
              (textNotice (noticeAt host options (S (steps w)) (deleterOf rk revoker)
                                    (orEmpty (remoteJid rk))) "(no text content)") w1)
    as (attempts & w' & Es & Hl' & _ & Hw).
  exists attempts, w'. rewrite Es, Hl', Hl. auto.
Qed.

(** X12: the forward target decides where recoveries go.  After
    [setForwardToJid] with a non-empty JID every attempt of [handleRevoke]
    is addressed to that JID; after [setForwardToJid] with nothing (or the
    empty string) every attempt is addressed to the chat of the revoked
    key. *)
Theorem forward_target_routing :
  forall (jid : string) (rk : MessageKey) (revoker : option string) (w : World),
    nonEmpty jid = true ->
    (exists attempts w',
       handleRevoke host options (Some rk) revoker (setForwardToJid (Some jid) w)
       = (Returned tt, w')
       /\ log w' = (log w ++ attempts)%list
       /\ Forall (fun a => to a = jid) attempts)
    /\ (exists attempts w',
          handleRevoke host options (Some rk) revoker (setForwardToJid None w)
          = (Returned tt, w')
          /\ log w' = (log w ++ attempts)%list
          /\ Forall (fun a => to a = orEmpty (remoteJid rk)) attempts)
    /\ setForwardToJid (Some "") w = setForwardToJid None w.
Proof.
  intros jid rk revoker w Hj. split; [|split; [|reflexivity]].
  - destruct (handleRevoke_total host options (Some rk) revoker (setForwardToJid (Some jid) w))
      as (a & w' & E & L & _ & _ & _ & _ & Ht).
    exists a, w'. repeat split; [exact E | exact L |].
    specialize (Ht rk eq_refl). unfold targetOf, setForwardToJid in Ht.
    cbn [forwardToJid] in Ht. destruct jid; [discriminate Hj|]. exact Ht.
  - destruct (handleRevoke_total host options (Some rk) revoker (setForwardToJid None w))
      as (a & w' & E & L & _ & _ & _ & _ & Ht).
    exists a, w'. repeat split; [exact E | exact L |].
    specialize (Ht rk eq_refl). unfold targetOf, setForwardToJid in Ht.
    cbn [forwardToJid truthy orElse] in Ht. exact Ht.
Qed.

End MoreRecovery.

Lemma handleRevoke_media_restored_witness :
  exists first second w',
    handleRevoke steadyHost plainOptions (Some (keyC1M1 (Some ""))) None picWorld
    = (Returned tt, w')
    /\ log w' = (log picWorld ++ first ++ second)%list
    /\ wrappedSend "owner@s.whatsapp.net"
         (TextContent (noticeAt steadyHost plainOptions (S (steps picWorld)) "C1" "C1")) first
    /\ wrappedSend "owner@s.whatsapp.net" (ImageContent "JPEG" "pic") second.
Proof.
  destruct (handleRevoke_media_restored steadyHost plainOptions (keyC1M1 (Some "")) None
              picWorld (mkRec O 0 picMessage (Some "C1")) image "JPEG")
    as (a1 & a2 & w' & E & L & W1 & W2 & _);
    [reflexivity | reflexivity | reflexivity | reflexivity | reflexivity |].
  exists a1, a2, w'. auto.
Defined.

Lemma handleRevoke_empty_text_witness :
  exists attempts w',
    handleRevoke steadyHost plainOptions (Some (keyC1M1 (Some ""))) None blankWorld
    = (Returned tt, w')
    /\ log w' = (log blankWorld ++ attempts)%list
    /\ wrappedSend "owner@s.whatsapp.net"
         (TextContent
            (noticeAt steadyHost plainOptions (S (steps blankWorld)) "C1" "C1"
             ++ String "010" (String "010" "(no text content)")))
         attempts.
Proof.
  apply (handleRevoke_empty_text steadyHost plainOptions (keyC1M1 (Some "")) None
           blankWorld (mkRec O 0 blankMessage (Some "C1"))); reflexivity.
Defined.

Lemma forward_target_routing_witness :
  exists attempts w',
    handleRevoke steadyHost plainOptions (Some (keyC1M1 None)) None
                 (setForwardToJid (Some "me@s.whatsapp.net") freshWorld)
    = (Returned tt, w')
    /\ log w' = (log freshWorld ++ attempts)%list
    /\ Forall (fun a => to a = "me@s.whatsapp.net") attempts.
Proof.
  destruct (forward_target_routing steadyHost plainOptions "me@s.whatsapp.net"
              (keyC1M1 None) None freshWorld eq_refl) as [H _].
  exact H.
Defined.

(* ------------------------------------------------------------------ *)
(** ** The two intake handlers *)

Section Intake.

Variable host : Host.
Variable options : Options.

Lemma upsertOne_total m w :
  exists attempts w',
    upsertOne host options m w = (Returned tt, w')
    /\ log w' = (log w ++ attempts)%list
    /\ enabled w' = enabled w
    /\ forwardToJid w' = forwardToJid w.
Proof.
  unfold upsertOne, tryCatch.
  destruct (revokeTarget (message m)) as [rk|].
  - destruct (handleRevoke_total host options (Some rk)
                (orElse (orElse (optField participant (key m)) (optField remoteJid (key m)))
                        None) w)
      as (a & w' & E & L & He & Hf & _).
    rewrite E. eauto 10.
  - destruct (enabled w) eqn:He; cbn [negb];
      [|exists [], w; rewrite app_nil_r; auto].
    destruct (present (message m)); cbn [negb];
      [|exists [], w; rewrite app_nil_r; auto].
    exists [], (withCache (add (dateNow host (steps w)) (key m) m
                               (orElse (optField participant (key m))
                                       (optField remoteJid (key m))) (cache w)) (tick w)).
    rewrite app_nil_r. cbn. auto.
Qed.

(** X13: [onUpsert] never raises.  For every batch, revoke notices and
    content in any mix, and whatever the host does, it processes the whole
    batch and returns normally; it only appends to the send log and leaves
    the flag and the forward target as they were. *)
Theorem onUpsert_never_raises :
  forall (messages : list WAMessage) (w : World),
    exists attempts w',
      onUpsert host options messages w = (Returned tt, w')
      /\ log w' = (log w ++ attempts)%list
      /\ enabled w' = enabled w
      /\ forwardToJid w' = forwardToJid w.
Proof.
  induction messages as [|m ms IH]; intros w.
  - exists [], w. rewrite app_nil_r. cbn. auto.
  - destruct (upsertOne_total m w) as (a1 & w1 & E1 & L1 & He1 & Hf1).
    destruct (IH w1) as (a2 & w2 & E2 & L2 & He2 & Hf2).
    exists (a1 ++ a2)%list, w2. cbn [onUpsert]. unfold bind. rewrite E1, E2, L2, L1, app_assoc.
    repeat split; congruence.
Qed.

(** Counting the inserts of a batch without revoke notices. *)
Lemma onUpsert_counts :
  forall (messages : list WAMessage) (w : World),
    enabled w = true ->
    Forall (fun m => revokeTarget (message m) = None) messages ->
    exists w',
      onUpsert host options messages w = (Returned tt, w')
      /\ log w' = log w
      /\ enabled w' = true
      /\ nextRid (cache w') = (nextRid (cache w) + length (filter archivable messages))%nat
      /\ steps w' = (steps w + length (filter archivable messages))%nat.
Proof.
  induction messages as [|m ms IH]; intros w He F.
  - exists w. cbn. rewrite !Nat.add_0_r. auto.
  - inversion F as [|? ? Hm Hms]; subst.
    assert (Ha : archivable m = present (message m)).
    { unfold archivable. rewrite Hm. apply andb_true_r. }
    cbn [onUpsert filter]. unfold bind. rewrite Ha.
    destruct (present (message m)) eqn:Hp.
    + rewrite (upsertOne_archives host options m w He Hm Hp).
      destruct (IH (withCache (add (dateNow host (steps w)) (key m) m
                                   (orElse (optField participant (key m))
                                           (optField remoteJid (key m))) (cache w))
                              (tick w))) as (w' & E & L & He' & Hn & Hs);
        [exact He | exact Hms |].
      exists w'. rewrite E. cbn [withCache tick log cache steps length] in *.
      assert (Hnext : nextRid (add (dateNow host (steps w)) (key m) m
                                   (orElse (optField participant (key m))
                                           (optField remoteJid (key m))) (cache w))
                      = S (nextRid (cache w))).
      { rewrite add_unfold. cbv zeta. cbn [nextRid].
        destruct (MAX_CACHE * 3 <? totalSize (cache w));
          [now rewrite evictOldest_nextRid | reflexivity]. }
      rewrite Hnext in Hn. repeat split; try assumption; lia.
    + assert (E1 : upsertOne host options m w = (Returned tt, w)).
      { unfold upsertOne, tryCatch. rewrite Hm, He, Hp. reflexivity. }
      rewrite E1. now apply IH.
Qed.

Lemma archiveOps_contents n messages :
  map op_container (archiveOps host n messages) = filter archivable messages
  /\ Forall (fun op => op_key op = key (op_container op)
                       /\ op_author op = authorOf (op_container op))
            (archiveOps host n messages).
Proof.
  revert n. induction messages as [|m ms IH]; intros n; cbn; [split; constructor|].
  destruct (archivable m); [|apply IH].
  destruct (IH (S n)) as [E F]. cbn. split; [now f_equal | constructor; auto].
Qed.

Lemma archiveOps_snoc n ms m :
  archivable m = true ->
  archiveOps host n (ms ++ [m])
  = (archiveOps host n ms
     ++ [mkAddOp (dateNow host (n + length (filter archivable ms))) (key m) m (authorOf m)])%list.
Proof.
  intros Hm. revert n. induction ms as [|x ms IH]; intros n; cbn.
  - now rewrite Hm, Nat.add_0_r.
  - destruct (archivable x); cbn; [|apply IH].
    rewrite IH. now rewrite Nat.add_succ_r.
Qed.

Lemma replay_ttlMs ops c : ttlMs (replay ops c) = ttlMs c.
Proof.
  revert c. induction ops as [|op ops IH]; intros c; [reflexivity|].
  unfold replay in *. cbn [fold_left]. rewrite IH. apply add_ttlMs.
Qed.

(** The cache after a batch without revoke notices. *)
Lemma onUpsert_replays messages w :
  enabled w = true ->
  Forall (fun m => revokeTarget (message m) = None) messages ->
  exists w',
    onUpsert host options messages w = (Returned tt, w')
    /\ forwardToJid w' = forwardToJid w
    /\ cache w' = replay (archiveOps host (steps w) messages) (cache w).
Proof.
  revert w. induction messages as [|m ms IH]; intros w He F.
  - exists w. cbn. auto.
  - inversion F as [|? ? Hm Hms]; subst.
    assert (Ha : archivable m = present (message m)).
    { unfold archivable. rewrite Hm. apply andb_true_r. }
    cbn [onUpsert archiveOps]. unfold bind. rewrite Ha.
    destruct (present (message m)) eqn:Hp.
    + rewrite (upsertOne_archives host options m w He Hm Hp).
      destruct (IH (withCache (add (dateNow host (steps w)) (key m) m
                                   (orElse (optField participant (key m))
                                           (optField remoteJid (key m))) (cache w))
                              (tick w))) as (w' & E & Hf & Hc);
        [exact He | exact Hms |].
      exists w'. rewrite E. cbn [withCache tick cache steps forwardToJid] in *.
      repeat split; assumption.
    + assert (E1 : upsertOne host options m w = (Returned tt, w)).
      { unfold upsertOne, tryCatch. rewrite Hm, He, Hp. reflexivity. }
      rewrite E1. now apply IH.
Qed.

(** X14: while enabled, a batch without revoke notices is archived
    silently.  Nothing is sent and the flag and the forward target stay as
    they were; the cache afterwards is the one obtained by calling [add],
    in batch order, once for each message that has content and for no
    other, each under the key of that message, holding the whole message
    and the participant-or-chat author, at successive clock readings; in
    particular a batch that ends with a message that has content leaves
    that message, unchanged, as the answer to a lookup of its key within
    the TTL. *)
Theorem onUpsert_archives_batch :
  forall (messages : list WAMessage) (w : World),
    enabled w = true ->
    Forall (fun m => revokeTarget (message m) = None) messages ->
    exists w',
      onUpsert host options messages w = (Returned tt, w')
      /\ log w' = log w
      /\ enabled w' = true
      /\ nextRid (cache w') = (nextRid (cache w) + length (filter archivable messages))%nat
      /\ steps w' = (steps w + length (filter archivable messages))%nat
      /\ forwardToJid w' = forwardToJid w
      /\ cache w' = replay (archiveOps host (steps w) messages) (cache w)
      /\ map op_container (archiveOps host (steps w) messages) = filter archivable messages
      /\ Forall (fun op => op_key op = key (op_container op)
                           /\ op_author op = authorOf (op_container op))
                (archiveOps host (steps w) messages)
      /\ (forall ms m t',
            messages = (ms ++ [m])%list ->
            archivable m = true ->
            t' - dateNow host (steps w + length (filter archivable ms)) <= ttlMs (cache w) ->
            exists r,
              getByRevokedKey t' (key m) (cache w') = (Some r, cache w')
              /\ container r = m
              /\ authorJid r = authorOf m
              /\ at_ r = dateNow host (steps w + length (filter archivable ms))).
Proof.
  intros messages w He F.
  destruct (onUpsert_counts messages w He F) as (w' & E & L & He' & Hn & Hs).
  destruct (onUpsert_replays messages w He F) as (w2 & E2 & Hf & Hc).
  rewrite E in E2. injection E2 as <-.
  destruct (archiveOps_contents (steps w) messages) as [Ec Fc].
  exists w'. repeat (split; [assumption|]).
  intros ms m t' -> Hm Ht.
  rewrite Hc, archiveOps_snoc by exact Hm. rewrite replay_snoc. unfold applyAdd.
  cbn [op_now op_key op_container op_author].
  eexists. split; [apply lookup_after_add; now rewrite replay_ttlMs|].
  cbn. auto.
Qed.

Lemma updateOne_total u w :
  exists attempts w',
    updateOne host options u w = (Returned tt, w')
    /\ log w' = (log w ++ attempts)%list
    /\ enabled w' = enabled w
    /\ forwardToJid w' = forwardToJid w
    /\ nextRid (cache w') = nextRid (cache w)
    /\ totalSize (cache w') <= totalSize (cache w).
Proof.
  unfold updateOne, tryCatch.
  destruct (revokeTarget match update u with
                         | Some p => message p
                         | None => None
                         end) as [rk|].
  - destruct (handleRevoke_total host options (Some rk) None w)
      as (a & w' & E & L & He & Hf & Hc & _).
    rewrite E. exists a, w'. repeat split; try assumption.
    + destruct Hc as [->| ->]; [reflexivity | apply getByRevokedKey_shrinks].
    + destruct Hc as [->| ->]; [lia | apply getByRevokedKey_shrinks].
  - exists [], w. rewrite app_nil_r. cbn. repeat split; auto; lia.
Qed.

End Intake.

Lemma onUpsert_archives_batch_witness :
  exists w',
    onUpsert steadyHost plainOptions [helloMessage; mkWAMessage None None; picMessage] freshWorld
    = (Returned tt, w')
    /\ log w' = []
    /\ nextRid (cache w') = 2%nat
    /\ exists r, getByRevokedKey 3000 (key picMessage) (cache w') = (Some r, cache w')
                 /\ container r = picMessage.
Proof.
  destruct (onUpsert_archives_batch steadyHost plainOptions
              [helloMessage; mkWAMessage None None; picMessage] freshWorld)
    as (w' & E & L & _ & Hn & _ & _ & _ & _ & _ & Hlast).
  - reflexivity.
  - repeat constructor.
  - exists w'. split; [exact E|]. split; [exact L|]. split; [exact Hn|].
    destruct (Hlast [helloMessage; mkWAMessage None None] picMessage 3000)
      as (r & Hr & Hc & _); [reflexivity | reflexivity | cbv; discriminate |].
    exists r. auto.
Defined.

(** X15: [onUpdate] never archives and never raises.  For every batch of
    updates it returns normally, may send recoveries, leaves the flag and
    the forward target alone, allocates no record and never enlarges the
    cache; a batch without revoke notices changes nothing at all. *)
Theorem onUpdate_never_archives :
  forall (host : Host) (options : Options) (updates : list MessageUpdate) (w : World),
    (exists attempts w',
       onUpdate host options updates w = (Returned tt, w')
       /\ log w' = (log w ++ attempts)%list
       /\ enabled w' = enabled w
       /\ forwardToJid w' = forwardToJid w
       /\ nextRid (cache w') = nextRid (cache w)
       /\ totalSize (cache w') <= totalSize (cache w))
    /\ (Forall (fun u => revokeTarget match update u with
                                      | Some p => message p
                                      | None => None
                                      end = None) updates ->
        onUpdate host options updates w = (Returned tt, w)).
Proof.
  intros host options updates. induction updates as [|u us IH]; intros w.
  - split; [|reflexivity]. exists [], w. rewrite app_nil_r. cbn. repeat split; auto; lia.
  - split.
    + destruct (updateOne_total host options u w) as (a1 & w1 & E1 & L1 & He1 & Hf1 & Hn1 & Hs1).
      destruct (IH w1) as [(a2 & w2 & E2 & L2 & He2 & Hf2 & Hn2 & Hs2) _].
      exists (a1 ++ a2)%list, w2. cbn [onUpdate]. unfold bind.
      rewrite E1, E2, L2, L1, app_assoc. repeat split; try congruence; lia.
    + intros F. inversion F as [|? ? Hu Hus]; subst.
      cbn [onUpdate]. unfold bind, updateOne, tryCatch. rewrite Hu. cbn [ret].
      now apply IH.
Qed.

(** X16: a message and its revocation in one batch.  With the feature
    enabled, a batch that carries a text message and, right after it, the
    revoke notice for its key archives the message and recovers it within
    the same call: exactly one wrapped send is made, and its text is the
    header, two line feeds and the text of the message. *)
Theorem same_batch_recovery :
  forall (host : Host) (options : Options) (m : WAMessage) (rk : MessageKey)
         (reporter : option MessageKey) (w : World),
    enabled w = true ->
    key m = Some rk ->
    truthy (remoteJid rk) = true ->
    revokeTarget (message m) = None ->
    detectMediaKind (getContentType host) (message m) = None ->
    extractText (getContentType host) (message m) <> "" ->
    dateNow host (S (steps w)) - dateNow host (steps w) <= ttlMs (cache w) ->
    exists attempts w',
      onUpsert host options [m; revokeNotice reporter rk] w = (Returned tt, w')
      /\ log w' = (log w ++ attempts)%list
      /\ wrappedSend (targetOf w rk)
           (TextContent
              (noticeAt host options (S (S (steps w)))
                        (deleterOf rk (orElse (orElse (optField participant reporter)
                                                      (optField remoteJid reporter)) None))
                        (orEmpty (remoteJid rk))
               ++ String "010" (String "010" (extractText (getContentType host) (message m)))))
           attempts.
Proof.
  intros host options m rk reporter w He Hk Hc Hr Hd Ht Hl.
  destruct (upsert_then_revoke host options m rk
              (orElse (orElse (optField participant reporter) (optField remoteJid reporter))
                      None) w He Hk Hc Hr Hd Ht Hl)
    as (w1 & attempts & w2 & E1 & E2 & L & W).
  exists attempts, w2. split; [|auto].
  cbn [onUpsert] in *. unfold bind in *.
  destruct (upsertOne host options m w) as [[[]|] w0]; [|discriminate E1].
  cbn [ret] in E1. injection E1 as ->.
  unfold upsertOne at 1, tryCatch. cbn [revokeNotice message key revokeTarget protocolMessage
                                        pm_type pm_key].
  rewrite E2. reflexivity.
Qed.

Lemma same_batch_recovery_witness :
  exists attempts w',
    onUpsert steadyHost plainOptions
             [helloMessage; revokeNotice (Some (keyC1M1 (Some "P9"))) (keyC1M1 (Some ""))]
             freshWorld
    = (Returned tt, w')
    /\ log w' = attempts
    /\ wrappedSend "owner@s.whatsapp.net"
         (TextContent (noticeAt steadyHost plainOptions 2 "P9" "C1"
                       ++ String "010" (String "010" "hello")))
         attempts.
Proof.
  apply (same_batch_recovery steadyHost plainOptions helloMessage (keyC1M1 (Some ""))
           (Some (keyC1M1 (Some "P9"))) freshWorld);
    try reflexivity; cbv; discriminate.
Defined.

(* ------------------------------------------------------------------ *)
(** ** Numbers, JIDs and the deleter shown in the header *)

Lemma beforeAt_append user rest :
  lacks "@" user = true -> beforeAt (user ++ String "@" rest) = user.
Proof.
  induction user as [|c user IH]; cbn; intros H; [reflexivity|].
  apply andb_true_iff in H. destruct H as [Hc Hu].
  apply negb_true_iff in Hc. rewrite Hc. f_equal. now apply IH.
Qed.

Lemma beforeAt_plain s : lacks "@" s = true -> beforeAt s = s.
Proof.
  induction s as [|c s IH]; cbn; intros H; [reflexivity|].
  apply andb_true_iff in H. destruct H as [Hc Hs].
  apply negb_true_iff in Hc. rewrite Hc. f_equal. now apply IH.
Qed.

Lemma lacks_beforeAt s : lacks "@" (beforeAt s) = true.
Proof.
  induction s as [|c s IH]; cbn; [reflexivity|].
  destruct (Ascii.eqb c "@") eqn:E; cbn; [reflexivity|]. now rewrite E, IH.
Qed.

(** X17: the deleter shown in the default header is the user part of the
    JID: for a JID made of a user part without ['@'], an ['@'] and anything
    after it, the header reads "Deleted by: " followed by exactly the user
    part; what is shown never contains an ['@'], and a deleter without ['@']
    is shown whole. *)
Theorem header_shows_user_part :
  forall (user server chatId time : string),
    lacks "@" user = true ->
    defaultNotice (user ++ String "@" server) chatId time
    = defaultNotice user chatId time
    /\ beforeAt (user ++ String "@" server) = user
    /\ forall s, lacks "@" (beforeAt s) = true.
Proof.
  intros user server chatId time H. unfold defaultNotice.
  rewrite (beforeAt_append user server H), (beforeAt_plain user H).
  repeat split. apply lacks_beforeAt.
Qed.

Lemma header_shows_user_part_witness :
  beforeAt "923001234567@s.whatsapp.net" = "923001234567".
Proof.
  destruct (header_shows_user_part "923001234567" "s.whatsapp.net" "C1" "now" eq_refl)
    as (_ & H & _).
  exact H.
Defined.

Lemma digitsOnly_digits s : forall c, In c (list_ascii_of_string (digitsOnly s)) -> isDigit c = true.
Proof.
  induction s as [|a s IH]; cbn; intros c; [intros []|].
  destruct (isDigit a) eqn:E; cbn; [intros [<-|I]; auto | auto].
Qed.

Lemma digitsOnly_idem s : digitsOnly (digitsOnly s) = digitsOnly s.
Proof.
  induction s as [|a s IH]; cbn; [reflexivity|].
  destruct (isDigit a) eqn:E; cbn; [rewrite E; now f_equal | assumption].
Qed.

Lemma digitsOnly_lacks_at s : lacks "@" (digitsOnly s) = true.
Proof.
  induction s as [|a s IH]; cbn; [reflexivity|].
  destruct (isDigit a) eqn:E; cbn; [|assumption].
  rewrite IH, andb_true_r. apply negb_true_iff, Ascii.eqb_neq. intros ->. discriminate E.
Qed.

(** X18: the bot's number helpers.  [normalizeNumber] keeps the digits and
    is idempotent; [formatJid] of a normalized number is [formatJid] of the
    raw one; the JID it builds is never empty (so it always counts as a set
    forward target), and its user part, as the notice header shows it, is
    exactly the normalized number. *)
Theorem formatJid_normalized :
  forall input : string,
    normalizeNumber (normalizeNumber input) = normalizeNumber input
    /\ formatJid (normalizeNumber input) = formatJid input
    /\ truthy (Some (formatJid input)) = true
    /\ beforeAt (formatJid input) = normalizeNumber input
    /\ (forall c, In c (list_ascii_of_string (normalizeNumber input)) -> isDigit c = true).
Proof.
  intros input.
  assert (E : normalizeNumber input = digitsOnly input).
  { unfold normalizeNumber. destruct input; reflexivity. }
  rewrite E. repeat split.
  - unfold normalizeNumber. rewrite digitsOnly_idem. destruct (digitsOnly input); reflexivity.
  - unfold formatJid. now rewrite digitsOnly_idem.
  - unfold formatJid. destruct (digitsOnly input); reflexivity.
  - unfold formatJid. apply (beforeAt_append _ "s.whatsapp.net"), digitsOnly_lacks_at.
  - apply digitsOnly_digits.
Qed.

(* ------------------------------------------------------------------ *)
(** ** Insert and lookup *)

(** X19: insert, then look up.  A lookup with the key just inserted
    returns the record just created, holding the inserted envelope and
    author unchanged, as long as its age is at most the TTL (an age equal to
    the TTL still hits), and misses once the age exceeds the TTL; this holds
    whatever the cache held before, also when the insert evicted. *)
Theorem insert_lookup_round_trip :
  forall (t t' : Z) (k : option MessageKey) (cont : WAMessage) (a : option string)
         (c : MessageCache),
    fst (getByRevokedKey t' k (add t k cont a c))
    = (if ttlMs c <? t' - t then None else Some (mkRec (nextRid c) t cont a))
    /\ getByRevokedKey (t + ttlMs c) k (add t k cont a c)
       = (Some (mkRec (nextRid c) t cont a), add t k cont a c).
Proof.
  intros t t' k cont a c. split.
  - destruct (ttlMs c <? t' - t) eqn:E.
    + apply (expired_hit_is_miss t' k _ (added t cont a c)).
      * unfold firstHit. now rewrite add_strict.
      * rewrite add_ttlMs. apply Z.ltb_lt in E. exact E.
    + apply Z.ltb_ge in E. now rewrite lookup_after_add.
  - apply lookup_after_add. lia.
Qed.

Lemma add_idOnly t k cont a c :
  nonEmpty (idOnly (makeKeys k)) = true ->
  JSMap.get (idOnly (makeKeys k)) (idMap (add t k cont a c)) = Some (added t cont a c).
Proof.
  intros H. unfold add, added. cbn [idMap]. rewrite H, get_set_same.
  destruct (MAX_CACHE * 3 <? totalSize c); [rewrite evictOldest_nextRid|]; reflexivity.
Qed.

(** X20: the id-only tier.  After an insert under a key with a non-empty
    message id, a lookup whose key carries the same message id but matches
    no strict and no loose entry (another chat, say) returns the record just
    inserted, as long as it has not expired. *)
Theorem id_only_fallback :
  forall (t t' : Z) (k k' : option MessageKey) (cont : WAMessage) (a : option string)
         (c : MessageCache),
    nonEmpty (idOnly (makeKeys k)) = true ->
    idOnly (makeKeys k') = idOnly (makeKeys k) ->
    JSMap.get (strict (makeKeys k')) (strictMap (add t k cont a c)) = None ->
    JSMap.get (loose (makeKeys k')) (looseMap (add t k cont a c)) = None ->
    t' - t <= ttlMs c ->
    getByRevokedKey t' k' (add t k cont a c)
    = (Some (mkRec (nextRid c) t cont a), add t k cont a c).
Proof.
  intros t t' k k' cont a c Hi Hk Hs Hl Ht.
  apply fresh_hit.
  - unfold firstHit. rewrite Hs, Hl, Hk, Hi. now apply add_idOnly.
  - rewrite add_ttlMs. exact Ht.
Qed.

Lemma id_only_fallback_witness :
  fst (getByRevokedKey 5 (Some (mkKey (Some "C2") (Some "M1") None))
         (add 0 (Some (keyC1M1 (Some ""))) helloMessage None (newCache 1000)))
  = Some (mkRec O 0 helloMessage None).
Proof.
  rewrite (id_only_fallback 0 5 (Some (keyC1M1 (Some "")))
             (Some (mkKey (Some "C2") (Some "M1") None)) helloMessage None (newCache 1000));
    try reflexivity.
  cbv. discriminate.
Defined.

(** X21: a key without message id stays out of the id-only index.  An
    insert under such a key adds no entry to [idMap], and a lookup with such
    a key neither consults nor purges [idMap]: its answer is the strict hit
    or else the loose hit, and [idMap] is the same afterwards. *)
Theorem empty_id_skips_id_index :
  forall (t now : Z) (k : option MessageKey) (cont : WAMessage) (a : option string)
         (c : MessageCache),
    nonEmpty (idOnly (makeKeys k)) = false ->
    (length (idMap (add t k cont a c)) <= length (idMap c))%nat
    /\ (forall r, In r (JSMap.values (idMap (add t k cont a c))) ->
                  In r (JSMap.values (idMap c)))
    /\ idMap (snd (getByRevokedKey now k c)) = idMap c
    /\ firstHit (makeKeys k) c
       = match JSMap.get (strict (makeKeys k)) (strictMap c) with
         | Some r => Some r
         | None => JSMap.get (loose (makeKeys k)) (looseMap c)
         end.
Proof.
  intros t now k cont a c H.
  assert (Hid : idMap (add t k cont a c)
                = idMap (if MAX_CACHE * 3 <? totalSize c then evictOldest evictBatch c else c)).
  { rewrite add_unfold. cbv zeta. cbn [idMap]. now rewrite H. }
  repeat split.
  - rewrite Hid. destruct (MAX_CACHE * 3 <? totalSize c); [|lia].
    apply (dropped_lengths (victims evictBatch c) c).
  - rewrite Hid. destruct (MAX_CACHE * 3 <? totalSize c); [|auto].
    intros r Hr. now apply (dropped_values (victims evictBatch c) c r) in Hr.
  - unfold getByRevokedKey. destruct (firstHit (makeKeys k) c) as [r|]; [|reflexivity].
    destruct (ttlMs c <? now - at_ r); [|reflexivity]. cbn [snd idMap]. now rewrite H.
  - unfold firstHit. rewrite H.
    destruct (JSMap.get (strict (makeKeys k)) (strictMap c)); [reflexivity|].
    destruct (JSMap.get (loose (makeKeys k)) (looseMap c)); reflexivity.
Qed.

Lemma empty_id_skips_id_index_witness :
  idMap (add 0 (Some (mkKey (Some "C1") None None)) (mkWAMessage None None) None
             (newCache 1000)) = [].
Proof.
  destruct (empty_id_skips_id_index 0 0 (Some (mkKey (Some "C1") None None))
              (mkWAMessage None None) None (newCache 1000) eq_refl) as (H & _).
  destruct (idMap (add 0 (Some (mkKey (Some "C1") None None)) (mkWAMessage None None) None
                       (newCache 1000))); [reflexivity | cbn in H; lia].
Defined.

(* ------------------------------------------------------------------ *)
(** ** Sweeps compose *)

Lemma filter_absorb {A} (p q : A -> bool) l :
  (forall x, q x = true -> p x = true) -> filter q (filter p l) = filter q l.
Proof.
  intros H. induction l as [|x l IH]; cbn; [reflexivity|].
  destruct (p x) eqn:Ep; cbn.
  - destruct (q x); [now f_equal | assumption].
  - destruct (q x) eqn:Eq; [|assumption]. apply H in Eq. congruence.
Qed.

(** X22: sweeps compose.  A sweep followed by a later sweep leaves the
    cache the later sweep alone would leave; in particular sweeping twice at
    the same time is sweeping once. *)
Theorem cleanup_composes :
  forall (t1 t2 : Z) (c : MessageCache),
    t1 <= t2 ->
    cleanup t2 (cleanup t1 c) = cleanup t2 c
    /\ cleanup t1 (cleanup t1 c) = cleanup t1 c.
Proof.
  assert (G : forall t1 t2 c, t1 <= t2 -> cleanup t2 (cleanup t1 c) = cleanup t2 c).
  { intros t1 t2 c H. unfold cleanup. cbn [ttlMs strictMap looseMap idMap nextRid].
    unfold JSMap.deleteWhere. rewrite !filter_absorb; [reflexivity| | |];
      intros [k r] Hq; cbn [snd] in *; apply negb_true_iff in Hq;
      apply negb_true_iff; apply Z.ltb_ge in Hq; apply Z.ltb_ge; lia. }
  intros t1 t2 c H. split; apply G; lia.
Qed.

Lemma cleanup_composes_witness :
  cleanup 1001 (cleanup 5 twoSenders) = cleanup 1001 twoSenders.
Proof.
  destruct (cleanup_composes 5 1001 twoSenders) as [H _]; [lia | exact H].
Defined.

(* ------------------------------------------------------------------ *)
(** ** After an expiry *)

Lemma get_delete_same {V} k (m : JSMap.t V) : JSMap.get k (JSMap.delete k m) = None.
Proof.
  unfold JSMap.delete. induction m as [|[k' v] m IH]; cbn; [reflexivity|].
  destruct (String.eqb k k') eqn:E; cbn; [assumption | now rewrite E].
Qed.

(** X23: an expiry settles the looked-up identity.  When a lookup finds
    an expired record, the three keys of the looked-up identity are free
    afterwards (the id-only key if the id is not empty), so the same lookup
    repeated at any time misses again and changes nothing more. *)
Theorem expiry_frees_lookup_keys :
  forall (now now' : Z) (k : option MessageKey) (c : MessageCache) (r : Rec),
    firstHit (makeKeys k) c = Some r ->
    ttlMs c < now - at_ r ->
    let c' := snd (getByRevokedKey now k c) in
    fst (getByRevokedKey now k c) = None
    /\ JSMap.get (strict (makeKeys k)) (strictMap c') = None
    /\ JSMap.get (loose (makeKeys k)) (looseMap c') = None
    /\ firstHit (makeKeys k) c' = None
    /\ getByRevokedKey now' k c' = (None, c').
Proof.
  intros now now' k c r Hh Ht c'.
  assert (Ec : c' = {| ttlMs := ttlMs c;
                       strictMap := JSMap.delete (strict (makeKeys k)) (strictMap c);
                       looseMap := JSMap.delete (loose (makeKeys k)) (looseMap c);
                       idMap := if nonEmpty (idOnly (makeKeys k))
                                then JSMap.delete (idOnly (makeKeys k)) (idMap c)
                                else idMap c;
                       nextRid := nextRid c |}).
  { unfold c', getByRevokedKey. rewrite Hh. apply Z.ltb_lt in Ht. now rewrite Ht. }
  assert (Hf : firstHit (makeKeys k) c' = None).
  { rewrite Ec. unfold firstHit. cbn [strictMap looseMap idMap].
    rewrite !get_delete_same.
    destruct (nonEmpty (idOnly (makeKeys k))); [apply get_delete_same | reflexivity]. }
  split; [now apply (expired_hit_is_miss now k c r)|].
  split; [rewrite Ec; apply get_delete_same|].
  split; [rewrite Ec; apply get_delete_same|].
  split; [exact Hf|].
  unfold getByRevokedKey. now rewrite Hf.
Qed.

Lemma expiry_frees_lookup_keys_witness :
  getByRevokedKey 9000 (Some (keyC1M1 (Some "P1")))
                  (snd (getByRevokedKey 5000 (Some (keyC1M1 (Some "P1"))) twoSenders))
  = (None, snd (getByRevokedKey 5000 (Some (keyC1M1 (Some "P1"))) twoSenders)).
Proof.
  destruct (expiry_frees_lookup_keys 5000 9000 (Some (keyC1M1 (Some "P1"))) twoSenders
              (mkRec O 0 (mkWAMessage (Some (keyC1M1 (Some "P1"))) (Some (textMessage "first")))
                     None))
    as (_ & _ & _ & _ & H); [reflexivity | cbv; reflexivity | exact H].
Defined.
